(** * Mahjong turn engine (app/mahjong.tsx): a shallow embedding

    The screen component [MahjongScreen] keeps its game in React state
    cells and changes them from callbacks. The embedding keeps the same
    cells in one record, [Game], and turns every callback into a function
    from the game before the call to the game after it, together with the
    effects the callback hands to its environment (alerts, console lines,
    timers). Every state updater is run once, in program order.

    Conventions:
    - a JavaScript array is a [list], indexed with stdpp's [!!]; a read
      outside the array is [None];
    - the [Map<string, number>] of [checkWin] is a [gmap string nat];
    - a tile value (number | wind name | dragon name | undefined) is the
      inductive [Value]; numbers are [Z];
    - [Math.random()] is a draw from an explicit source, threaded through
      the functions which call it;
    - the shuffle at the end of [createTileDeck] is a parameter: some
      rearrangement of the array;
    - a property read on [undefined] ends a callback with [None]. *)

From Stdlib Require Import ZArith Ascii String List Sorted Lia.
From stdpp Require Import base tactics option numbers list sorting.
From stdpp Require Import strings pretty gmap fin_maps.

Local Open Scope string_scope.
Local Open Scope list_scope.
Local Open Scope Z_scope.

(** ** Data model *)

Inductive TileSuit := bamboo | character | dot | wind | dragon | flower.
Inductive WindValue := east | south | west | north.
Inductive DragonValue := red | green | white.

(** [value?: TileValue | WindValue | DragonValue]: what a tile can carry at
    run time. [VUndefined] is the absent optional field. *)
Inductive Value :=
  | VNum (n : Z)
  | VWind (w : WindValue)
  | VDragon (d : DragonValue)
  | VUndefined.

Record Tile := mkTile {
  tile_id : string;
  tile_suit : TileSuit;
  tile_value : Value
}.

Record Player := mkPlayer {
  player_id : string;
  player_name : string;
  hand : list Tile;
  discarded : list Tile;
  isAI : bool
}.

Inductive Phase := setup | playing | finished.

Global Instance TileSuit_eq_dec : EqDecision TileSuit.
Proof. solve_decision. Defined.
Global Instance WindValue_eq_dec : EqDecision WindValue.
Proof. solve_decision. Defined.
Global Instance DragonValue_eq_dec : EqDecision DragonValue.
Proof. solve_decision. Defined.
Global Instance Value_eq_dec : EqDecision Value.
Proof. solve_decision. Defined.
Global Instance Tile_eq_dec : EqDecision Tile.
Proof. solve_decision. Defined.
Global Instance Phase_eq_dec : EqDecision Phase.
Proof. solve_decision. Defined.

(** ** Strings of suits and values (template literals, [String(v)]) *)

Definition suitName (s : TileSuit) : string :=
  match s with
  | bamboo => "bamboo" | character => "character" | dot => "dot"
  | wind => "wind" | dragon => "dragon" | flower => "flower"
  end.

Definition windName (w : WindValue) : string :=
  match w with
  | east => "east" | south => "south" | west => "west" | north => "north"
  end.

Definition dragonName (d : DragonValue) : string :=
  match d with red => "red" | green => "green" | white => "white" end.

(** [String(v)], also what [`${v}`] prints; an integer prints in decimal. *)
Definition valueString (v : Value) : string :=
  match v with
  | VNum n => pretty n
  | VWind w => windName w
  | VDragon d => dragonName d
  | VUndefined => "undefined"
  end.

(** [`${tile.suit}-${tile.value}`] *)
Definition tileKey (t : Tile) : string :=
  suitName (tile_suit t) +:+ "-" +:+ valueString (tile_value t).

(** ** createTileDeck *)

(** The loop state of [createTileDeck]: the array built so far and
    [idCounter]. *)
Definition DeckSt : Type := list Tile * nat.

(** [tiles.push({ id: `${suit}-${value}-${idCounter++}`, suit, value })] *)
Definition pushTile (suit : TileSuit) (value : Value) (st : DeckSt) : DeckSt :=
  let '(tiles, idCounter) := st in
  (tiles ++ [mkTile (suitName suit +:+ "-" +:+ valueString value +:+ "-"
                       +:+ pretty idCounter) suit value],
   S idCounter).

(** [for (let copy = 0; copy < 4; copy++) push] *)
Definition pushCopies (suit : TileSuit) (value : Value) (st : DeckSt) : DeckSt :=
  foldl (λ st (_ : nat), pushTile suit value st) st (seq 0 4).

Definition suits : list TileSuit := [bamboo; character; dot].
Definition winds : list WindValue := [east; south; west; north].
Definition dragons : list DragonValue := [red; green; white].

(** The array before the final shuffle. *)
Definition orderedTiles : list Tile :=
  let st0 : DeckSt := ([], 0%nat) in
  let st1 :=
    foldl (λ st suit,
             foldl (λ st value, pushCopies suit (VNum value) st) st (seqZ 1 9))
          st0 suits in
  let st2 := foldl (λ st w, pushCopies wind (VWind w) st) st1 winds in
  let st3 := foldl (λ st d, pushCopies dragon (VDragon d) st) st2 dragons in
  st3.1.

(** [tiles.sort(() => Math.random() - 0.5)]: the comparator ignores its
    arguments, so the call rearranges the array in a way the source does
    not determine. [shuffle] stands for that rearrangement. *)
Definition createTileDeck (shuffle : list Tile → list Tile) : list Tile :=
  shuffle orderedTiles.

(** ** compareTiles and Array.prototype.sort *)

Definition suitOrder (s : TileSuit) : Z :=
  match s with
  | bamboo => 0 | character => 1 | dot => 2
  | wind => 3 | dragon => 4 | flower => 5
  end.

(** [a.localeCompare(b)] on the strings a tile value prints to (lower-case
    words and decimal numerals), where collation order is the order of the
    code units. *)
Definition localeCompare (a b : string) : Z :=
  match String.compare a b with Lt => -1 | Eq => 0 | Gt => 1 end.

Definition compareTiles (a b : Tile) : Z :=
  if bool_decide (suitOrder (tile_suit a) ≠ suitOrder (tile_suit b)) then
    suitOrder (tile_suit a) - suitOrder (tile_suit b)
  else
    match tile_value a, tile_value b with
    | VNum x, VNum y => x - y
    | va, vb => localeCompare (valueString va) (valueString vb)
    end.

(** [arr.sort(cmp)] for a comparator [cmp]: the stable sort. An element is
    placed before the first later element it does not exceed. *)
Section sort.
Context {A : Type} (cmp : A → A → Z).

Fixpoint insertSorted (x : A) (l : list A) : list A :=
  match l with
  | [] => [x]
  | y :: l' => if cmp x y <=? 0 then x :: y :: l' else y :: insertSorted x l'
  end.

Definition sortBy (l : list A) : list A := foldr insertSorted [] l.
End sort.

Definition sortHand (h : list Tile) : list Tile := sortBy compareTiles h.

(** ** checkWin *)

(** The [forEach] which fills [tileCounts]. *)
Definition countTile (m : gmap string nat) (t : Tile) : gmap string nat :=
  <[tileKey t := (default 0 (m !! tileKey t) + 1)%nat]> m.

Definition tileCounts (h : list Tile) : gmap string nat :=
  foldl countTile ∅ h.

(** The [forEach] over the counts; the pair is [(pairs, triplets)]. *)
Definition tally (m : gmap string nat) : nat * nat :=
  map_fold (λ (_ : string) (count : nat) (acc : nat * nat),
              let '(pairs, triplets) := acc in
              ((if bool_decide (2 ≤ count)%nat then S pairs else pairs),
               (if bool_decide (3 ≤ count)%nat then S triplets else triplets)))
           (0%nat, 0%nat) m.

Definition checkWin (h : list Tile) : bool :=
  if bool_decide (length h ≠ 14%nat) then false
  else
    let '(pairs, triplets) := tally (tileCounts h) in
    bool_decide (3 ≤ triplets)%nat || bool_decide (5 ≤ pairs)%nat.

(** ** findIsolatedTiles *)

(** [arr.forEach((x, i) => ...)] and [arr.some((x, i) => ...)] visit the
    elements with their index. *)
Definition entries {A} (l : list A) : list (nat * A) := imap (λ i x, (i, x)) l.

(** The callback of [hand.some] once the index test has passed. *)
Definition isNeighbor (tile other : Tile) : bool :=
  if bool_decide (tile_suit tile ≠ tile_suit other) then false
  else
    match tile_value tile, tile_value other with
    | VNum x, VNum y => bool_decide (Z.abs (x - y) ≤ 2)
    | va, vb => bool_decide (va = vb)
    end.

Definition hasNeighbor (h : list Tile) (index : nat) (tile : Tile) : bool :=
  existsb (λ e : nat * Tile,
             if bool_decide (index = e.1) then false else isNeighbor tile e.2)
          (entries h).

Definition findIsolatedTiles (h : list Tile) : list Tile :=
  foldl (λ isolated (e : nat * Tile),
           if hasNeighbor h e.1 e.2 then isolated else isolated ++ [e.2])
        [] (entries h).

(** ** Math.random *)

(** One result of [Math.random()]: the fraction [num / den], below 1. *)
Record Draw := mkDraw {
  num : nat;
  den : nat;
  num_lt_den : (num <? den)%nat = true
}.

(** [Math.floor(r * n)] *)
Definition floorTimes (r : Draw) (n : nat) : nat := (num r * n / den r)%nat.

(** The results of the calls of [Math.random()] still to come. *)
Definition RandomSource : Type := nat → Draw.

Definition mathRandom (rs : RandomSource) : Draw * RandomSource :=
  (rs 0%nat, λ i, rs (S i)).

(** [hand[Math.floor(Math.random() * hand.length)]] *)
Definition randomTile (rs : RandomSource) (h : list Tile)
  : option Tile * RandomSource :=
  let '(r, rs') := mathRandom rs in (h !! floorTimes r (length h), rs').

(** ** Opponent policy *)

Definition findStrategicDiscard (rs : RandomSource) (h : list Tile)
  : option Tile * RandomSource :=
  let tileCounts := tileCounts h in
  let isolated := findIsolatedTiles h in
  if bool_decide (0 < length isolated)%nat then (isolated !! 0%nat, rs)
  else randomTile rs h.

(** A route parameter as [useLocalSearchParams] hands it over:
    [string | string[] | undefined]. *)
Inductive Param :=
  | PUndefined
  | PString (s : string)
  | PArray (l : list string).

Global Instance Param_eq_dec : EqDecision Param.
Proof. solve_decision. Defined.

Definition truthy (p : Param) : bool :=
  match p with
  | PUndefined => false
  | PString s => negb (bool_decide (s = ""))
  | PArray _ => true
  end.

(** [(params.difficulty as Difficulty) || 'medium']: the cast does nothing
    at run time. *)
Definition difficultyOf (p : Param) : Param :=
  if truthy p then p else PString "medium".

(** The [case] labels of the [switch] are tried in order with [===]. *)
Definition selectTileToDiscard (rs : RandomSource) (h : list Tile)
    (difficulty : Param) : option Tile * RandomSource :=
  if bool_decide (length h = 0%nat) then (None, rs)
  else
    if bool_decide (difficulty = PString "easy") then randomTile rs h
    else if bool_decide (difficulty = PString "medium") then
      let isolatedTiles := findIsolatedTiles h in
      if bool_decide (0 < length isolatedTiles)%nat then
        let '(r, rs') := mathRandom rs in
        (isolatedTiles !! floorTimes r (length isolatedTiles), rs')
      else randomTile rs h
    else if bool_decide (difficulty = PString "hard") then
      match findStrategicDiscard rs h with
      | (Some strategicTile, rs') => (Some strategicTile, rs')
      | (None, rs') => randomTile rs' h
      end
    else (h !! 0%nat, rs).

(** ** The game and its callbacks *)

(** The state cells of [MahjongScreen]. *)
Record Game := mkGame {
  gameState : Phase;
  players : list Player;
  currentPlayerIndex : nat;
  drawPile : list Tile;
  selectedTile : option string;
  lastDrawnTile : option Tile;
  winner : option string
}.

(** [useState] initial values. *)
Definition initialGame : Game := mkGame setup [] 0 [] None None None.

(** What a callback asks of its environment. *)
Inductive Effect :=
  | Alert (title message : string)
  | ConsoleLog (message : string) (args : list Param)
  | SetTimeoutDrawTile (playerIndex : nat) (ms : nat).

Definition setHand (p : Player) (h : list Tile) : Player :=
  mkPlayer (player_id p) (player_name p) h (discarded p) (isAI p).

(** A callback ends with the next game and its effects, or, at [None],
    with the [TypeError] of a property read on [undefined]. *)
Definition Outcome : Type := option (Game * list Effect).

Definition drawTile (playerIndex : nat) (g : Game) : Outcome :=
  match drawPile g with
  | [] =>
      Some (mkGame finished (players g) (currentPlayerIndex g) (drawPile g)
              (selectedTile g) (lastDrawnTile g) (winner g),
            [Alert "Game Over" "No more tiles to draw. Game ends in a draw."])
  | drawnTile :: newDrawPile =>
      match players g !! playerIndex with
      | None => None
      | Some p =>
          let p' := setHand p (sortHand (hand p ++ [drawnTile])) in
          let newPlayers := <[playerIndex := p']> (players g) in
          let won := checkWin (hand p') in
          Some (mkGame (if won then finished else gameState g)
                  newPlayers (currentPlayerIndex g) newDrawPile
                  (selectedTile g) (Some drawnTile)
                  (if won then Some (player_name p') else winner g),
                ConsoleLog (player_name p' +:+ " drew a tile") [] ::
                (if won then [Alert "Winner!" (player_name p' +:+ " wins!")]
                 else []))
      end
  end.

Definition discardTile (playerIndex : nat) (tileId : string) (g : Game)
  : Outcome :=
  match players g !! playerIndex with
  | None => None
  | Some player =>
      match list_find (λ t, tile_id t = tileId) (hand player) with
      | None => Some (g, [])
      | Some (tileIndex, discardedTile) =>
          let player' :=
            mkPlayer (player_id player) (player_name player)
              (delete tileIndex (hand player))
              (discarded player ++ [discardedTile]) (isAI player) in
          let newPlayers := <[playerIndex := player']> (players g) in
          let nextPlayerIndex :=
            ((playerIndex + 1) `mod` length newPlayers)%nat in
          Some (mkGame (gameState g) newPlayers nextPlayerIndex (drawPile g)
                  None None (winner g),
                [ConsoleLog (player_name player +:+ " discarded a tile") [];
                 SetTimeoutDrawTile nextPlayerIndex 500])
      end
  end.

(** [arr.slice(a, b)] for [0 <= a <= b]. *)
Definition slice {A} (a b : nat) (l : list A) : list A := take (b - a) (drop a l).

Definition initializeGame (shuffle : list Tile → list Tile) (difficulty : Param)
    (g : Game) : Game * list Effect :=
  let deck := createTileDeck shuffle in
  let newPlayers :=
    [ mkPlayer "player" "You" (sortHand (slice 0 13 deck)) [] false;
      mkPlayer "ai1" "AI Bot 1" (sortHand (slice 13 26 deck)) [] true;
      mkPlayer "ai2" "AI Bot 2" (sortHand (slice 26 39 deck)) [] true;
      mkPlayer "ai3" "AI Bot 3" (sortHand (slice 39 52 deck)) [] true ] in
  (mkGame playing newPlayers 0 (drop 52 deck)
     (selectedTile g) (lastDrawnTile g) None,
   [ConsoleLog "Initializing Mahjong game with difficulty:" [difficulty]]).

(** ** The claims in the words of the specification *)

(** Grouping a hand by identical (suit, value). *)
Definition groupKey (t : Tile) : TileSuit * Value := (tile_suit t, tile_value t).

Definition groups (h : list Tile) : list (TileSuit * Value) :=
  remove_dups (groupKey <$> h).

Definition groupSize (h : list Tile) (g : TileSuit * Value) : nat :=
  length (filter (λ t, groupKey t = g) h).

(** Number of groups with count at least [k]. *)
Definition groupsOfAtLeast (k : nat) (h : list Tile) : nat :=
  length (filter (λ g, (k ≤ groupSize h g)%nat) (groups h)).

Definition numbered (s : TileSuit) : bool :=
  match s with bamboo | character | dot => true | _ => false end.

Definition isNumber (v : Value) : bool :=
  match v with VNum _ => true | _ => false end.

(** The data model's "value appropriate to the suit", as far as the
    isolation test depends on it: the numbered suits, and only they, carry
    numbers. *)
Definition valueFitsSuit (t : Tile) : Prop :=
  isNumber (tile_value t) = numbered (tile_suit t).

(** "Another tile of the same suit within value distance 2 (numbered
    suits), or with exactly the same value (the other suits)". *)
Definition specNeighbor (t o : Tile) : Prop :=
  tile_suit t = tile_suit o ∧
  if numbered (tile_suit t) then
    ∃ x y, tile_value t = VNum x ∧ tile_value o = VNum y ∧ Z.abs (x - y) ≤ 2
  else tile_value t = tile_value o.

(** The tile ordering of a sorted hand. *)
Definition tileLe (a b : Tile) : Prop := compareTiles a b ≤ 0.

(** Copies of a (suit, value) combination in an array of tiles. *)
Definition copiesOf (s : TileSuit) (v : Value) (l : list Tile) : nat :=
  length (filter (λ t, groupKey t = (s, v)) l).

(** The 34 combinations of a full set. *)
Definition inFullSet (s : TileSuit) (v : Value) : Prop :=
  (numbered s = true ∧ ∃ n, 1 ≤ n ≤ 9 ∧ v = VNum n)
  ∨ (s = wind ∧ ∃ w, v = VWind w)
  ∨ (s = dragon ∧ ∃ d, v = VDragon d).

(** The medium tier of [selectTileToDiscard]. *)
Definition mediumPolicy (rs : RandomSource) (h : list Tile)
  : option Tile * RandomSource :=
  selectTileToDiscard rs h (PString "medium").

(** ** Example tiles, hands and games *)

Definition numTile (s : TileSuit) (n : Z) (k : nat) : Tile :=
  mkTile (suitName s +:+ "-" +:+ pretty n +:+ "-" +:+ pretty k) s (VNum n).

Definition windTile (w : WindValue) (k : nat) : Tile :=
  mkTile ("wind-" +:+ windName w +:+ "-" +:+ pretty k) wind (VWind w).

Definition drawZero : Draw := mkDraw 0 1 eq_refl.
Definition zeros : RandomSource := λ _, drawZero.

(** Three triplets among 14 tiles. *)
Definition threeTriplets : list Tile :=
  [ numTile bamboo 1 0; numTile bamboo 1 1; numTile bamboo 1 2;
    numTile bamboo 2 4; numTile bamboo 2 5; numTile bamboo 2 6;
    numTile dot 1 72; numTile dot 1 73; numTile dot 1 74;
    numTile dot 3 80; numTile dot 4 84; numTile dot 5 88;
    numTile dot 6 92; numTile dot 7 96 ].

(** Five triplets, 15 tiles. *)
Definition fiveTriplets : list Tile :=
  [ numTile bamboo 1 0; numTile bamboo 1 1; numTile bamboo 1 2;
    numTile bamboo 2 4; numTile bamboo 2 5; numTile bamboo 2 6;
    numTile bamboo 3 8; numTile bamboo 3 9; numTile bamboo 3 10;
    numTile dot 1 72; numTile dot 1 73; numTile dot 1 74;
    numTile dot 3 80; numTile dot 3 81; numTile dot 3 82 ].

(** A game in progress with short hands. *)
Definition smallTable (pile : list Tile) : Game :=
  mkGame playing
    [ mkPlayer "player" "You" [numTile bamboo 1 0; numTile dot 9 104] [] false;
      mkPlayer "ai1" "AI Bot 1" [numTile bamboo 2 4; numTile dot 5 88]
        [windTile east 108] true;
      mkPlayer "ai2" "AI Bot 2" [numTile dot 1 72; numTile dot 2 76] [] true;
      mkPlayer "ai3" "AI Bot 3" [windTile west 116; windTile west 117] [] true ]
    1 pile None None None.

(** ** Auxiliary notions of the proofs *)

(** The key of a group, [`${suit}-${value}`]. *)
Definition keyString (g : TileSuit * Value) : string :=
  suitName g.1 +:+ "-" +:+ valueString g.2.

(** A string whose first character comes before the lower-case letters. *)
Definition belowLetters (s : string) : Prop :=
  ∃ c s', s = String c s' ∧ Ascii.compare c "a" = Lt.

(** Tiles of a hand under one key. *)
Definition keyCount (k : string) (h : list Tile) : nat :=
  length (filter (λ t, tileKey t = k) h).

(** A position of the hand whose tile [findIsolatedTiles] keeps. *)
Definition isolatedEntry (h : list Tile) (e : nat * Tile) : Prop :=
  hasNeighbor h e.1 e.2 = false.

Global Instance isolatedEntry_dec h e : Decision (isolatedEntry h e).
Proof. unfold isolatedEntry. apply _. Defined.

(** The three difficulty tiers. *)
Definition tiers : list Param :=
  [PString "easy"; PString "medium"; PString "hard"].

(** A winning hand of the full game: four runs and a pair. *)
Definition fourRunsAndPair : list Tile :=
  [ numTile bamboo 1 0; numTile bamboo 2 4; numTile bamboo 3 8;
    numTile bamboo 4 12; numTile bamboo 5 16; numTile bamboo 6 20;
    numTile bamboo 7 24; numTile bamboo 8 28; numTile bamboo 9 32;
    numTile dot 1 72; numTile dot 2 76; numTile dot 3 80;
    mkTile "wind-east-108" wind (VWind east);
    mkTile "wind-east-109" wind (VWind east) ].

(** ** The remaining callbacks of the screen *)

(** [performAITurn]: the updater looks at the current player and returns
    [prevPlayers]; the [discardTile] it calls on the way is carried out on
    that game. *)
Definition performAITurn (rs : RandomSource) (difficulty : Param) (g : Game)
  : Outcome * RandomSource :=
  match players g !! currentPlayerIndex g with
  | None => (Some (g, []), rs)
  | Some player =>
      if negb (isAI player) then (Some (g, []), rs)
      else
        match selectTileToDiscard rs (hand player) difficulty with
        | (Some tileToDiscard, rs') =>
            (discardTile (currentPlayerIndex g) (tile_id tileToDiscard) g, rs')
        | (None, rs') => (Some (g, []), rs')
        end
  end.

(** [Haptics.ImpactFeedbackStyle] *)
Inductive ImpactFeedbackStyle := Light | Medium.

(** What a press handler asks of its environment: haptic feedback, or an
    effect of the engine. *)
Inductive UiEffect :=
  | ImpactAsync (style : ImpactFeedbackStyle)
  | Engine (e : Effect).

(** [players[currentPlayerIndex]?.isAI], [undefined] counting as false. *)
Definition currentIsAI (g : Game) : bool :=
  match players g !! currentPlayerIndex g with
  | Some p => isAI p
  | None => false
  end.

Definition setSelectedTile (g : Game) (sel : option string) : Game :=
  mkGame (gameState g) (players g) (currentPlayerIndex g) (drawPile g)
    sel (lastDrawnTile g) (winner g).

Definition handleTilePress (tileId : string) (g : Game) : Game * list UiEffect :=
  if bool_decide (gameState g ≠ playing) then (g, [])
  else if currentIsAI g then (g, [])
  else
    (setSelectedTile g
       (if bool_decide (selectedTile g = Some tileId) then None
        else Some tileId),
     [ImpactAsync Light]).

(** [!selectedTile] holds of [null] and of the empty string. *)
Definition handleDiscard (g : Game) : option (Game * list UiEffect) :=
  let noTileSelected :=
    Some (g, [Engine (Alert "No Tile Selected"
                        "Please select a tile to discard")]) in
  match selectedTile g with
  | None => noTileSelected
  | Some tileId =>
      if bool_decide (tileId = "") then noTileSelected
      else
        match discardTile (currentPlayerIndex g) tileId g with
        | None => None
        | Some (g', effects) =>
            Some (g', ImpactAsync Medium :: (Engine <$> effects))
        end
  end.

(** ** The screen over time *)

(** The game together with the [setTimeout] calls of [discardTile] which
    have not fired yet, oldest first: each holds the player who will draw.
    All have the same delay, so they fire in the order they were set. *)
Record Screen := mkScreen {
  game : Game;
  timers : list nat
}.

(** The timeouts set by a callback. *)
Definition scheduled (effects : list Effect) : list nat :=
  omap (λ e, match e with
             | SetTimeoutDrawTile playerIndex _ => Some playerIndex
             | _ => None
             end) effects.

(** What happens to the screen: [initializeGame] (at mount and from the
    reset button), the oldest timeout firing [drawTile], [performAITurn],
    a press on a tile, a press on the discard button. [drawTile] has no
    other caller than the timeout. The events may come in any order: the
    orders which the opponent timer and the buttons shown allow are among
    them. *)
Inductive Event :=
  | EvInitializeGame (shuffle : list Tile → list Tile)
  | EvTimeout
  | EvPerformAITurn (rs : RandomSource)
  | EvTilePress (tileId : string)
  | EvDiscardPress.

(** The engine part of the effects of a press handler. *)
Definition engineEffects (effects : list UiEffect) : list Effect :=
  omap (λ e, match e with Engine e' => Some e' | _ => None end) effects.

(** The screen after an engine callback. *)
Definition after (s : Screen) (o : Outcome) : option Screen :=
  match o with
  | None => None
  | Some (g, effects) => Some (mkScreen g (timers s ++ scheduled effects))
  end.

Definition step (difficulty : Param) (ev : Event) (s : Screen)
  : option Screen :=
  match ev with
  | EvInitializeGame shuffle =>
      Some (mkScreen (initializeGame shuffle difficulty (game s)).1 (timers s))
  | EvTimeout =>
      match timers s with
      | [] => Some s
      | playerIndex :: rest =>
          after (mkScreen (game s) rest) (drawTile playerIndex (game s))
      end
  | EvPerformAITurn rs => after s (performAITurn rs difficulty (game s)).1
  | EvTilePress tileId =>
      Some (mkScreen (handleTilePress tileId (game s)).1 (timers s))
  | EvDiscardPress =>
      match handleDiscard (game s) with
      | None => None
      | Some (g, effects) =>
          Some (mkScreen g (timers s ++ scheduled (engineEffects effects)))
      end
  end.

Fixpoint run (difficulty : Param) (evs : list Event) (s : Screen)
  : option Screen :=
  match evs with
  | [] => Some s
  | ev :: evs' =>
      match step difficulty ev s with
      | None => None
      | Some s' => run difficulty evs' s'
      end
  end.

(** The screen before its first event. *)
Definition unmounted : Screen := mkScreen initialGame [].

Definition isInitializeGame (ev : Event) : bool :=
  match ev with EvInitializeGame _ => true | _ => false end.

(** ** Notions of the further properties *)

(** Every tile of the table: hands, discard piles, draw pile. *)
Definition allTiles (g : Game) : list Tile :=
  concat (hand <$> players g) ++ concat (discarded <$> players g) ++ drawPile g.

(** What a player keeps for the whole game. *)
Definition seat (p : Player) : string * string * bool :=
  (player_id p, player_name p, isAI p).

Definition tableSeats : list (string * string * bool) :=
  [("player", "You", false); ("ai1", "AI Bot 1", true);
   ("ai2", "AI Bot 2", true); ("ai3", "AI Bot 3", true)].

(** Tiles held by a player plus draws pending for that player. *)
Definition handSize (g : Game) (i : nat) : nat :=
  match players g !! i with Some p => length (hand p) | None => 0%nat end.

Definition pendingDraws (s : Screen) (i : nat) : nat :=
  length (filter (λ j, j = i) (timers s)).

(** ** Invariants of the screen *)

(** What every game after [initializeGame] satisfies: the four seats, a
    current player among them, the tiles of the full set and no others on
    the table, every hand in sorted order. *)
Record tableOk (g : Game) : Prop := mkTableOk {
  ok_seats : seat <$> players g = tableSeats;
  ok_current : (currentPlayerIndex g < 4)%nat;
  ok_tiles : allTiles g ≡ₚ orderedTiles;
  ok_sorted : Forall (λ p, StronglySorted tileLe (hand p)) (players g)
}.

Definition screenOk (s : Screen) : Prop :=
  tableOk (game s) ∧ Forall (λ i, (i < 4)%nat) (timers s).

(** Every shuffle of the events rearranges the array. *)
Definition fairShuffles (evs : list Event) : Prop :=
  ∀ shuffle, EvInitializeGame shuffle ∈ evs → ∀ l, shuffle l ≡ₚ l.

(** The most tiles player [i] can hold, or be about to draw, when the turn
    is with player [current]. *)
Definition handBound (current i : nat) : nat :=
  if bool_decide (i = 0%nat) then
    if bool_decide (current = 0%nat) then 13%nat else 12%nat
  else if bool_decide (i = current) then 14%nat else 13%nat.

Definition turnOk (s : Screen) : Prop :=
  (∀ i, (i < 4)%nat →
     (handSize (game s) i + pendingDraws s i
      ≤ handBound (currentPlayerIndex (game s)) i)%nat)
  ∧ winner (game s) ≠ Some "You".

(** A player later in the same game: the same seat, and a discard pile
    which starts with the earlier one. *)
Definition playerLater (p p' : Player) : Prop :=
  seat p' = seat p ∧ discarded p `prefix_of` discarded p'.

(** A game later without a reset in between. *)
Definition gameLater (g g' : Game) : Prop :=
  (gameState g = finished → gameState g' = finished)
  ∧ drawPile g' `suffix_of` drawPile g
  ∧ Forall2 playerLater (players g) (players g').

(** * Proofs *)

(** ** Sorting *)

Section sort_facts.
Context {A : Type} (cmp : A → A → Z).

Lemma insertSorted_Permutation x l : insertSorted cmp x l ≡ₚ x :: l.
Proof.
  induction l as [|y l IH]; simpl; [done|].
  destruct (cmp x y <=? 0); [done|].
  rewrite IH. apply Permutation_swap.
Qed.

Lemma sortBy_Permutation l : sortBy cmp l ≡ₚ l.
Proof.
  induction l as [|x l IH]; simpl; [done|].
  by rewrite insertSorted_Permutation, IH.
Qed.

Lemma length_sortBy l : length (sortBy cmp l) = length l.
Proof. by rewrite sortBy_Permutation. Qed.

(** A comparator which never calls both [a] after [b] and [b] after [a]. *)
Hypothesis cmp_total : ∀ a b, 0 < cmp a b → cmp b a ≤ 0.

Lemma insertSorted_HdRel z x l :
  cmp z x ≤ 0 → HdRel (λ a b, cmp a b ≤ 0) z l →
  HdRel (λ a b, cmp a b ≤ 0) z (insertSorted cmp x l).
Proof.
  intros Hzx Hz. destruct l as [|y l]; simpl; [by constructor|].
  destruct (cmp x y <=? 0); constructor; [done|].
  by inversion Hz.
Qed.

Lemma insertSorted_Sorted x l :
  Sorted (λ a b, cmp a b ≤ 0) l →
  Sorted (λ a b, cmp a b ≤ 0) (insertSorted cmp x l).
Proof.
  induction 1 as [|y l Hl IH Hy]; simpl; [by repeat constructor|].
  destruct (Z.leb_spec (cmp x y) 0).
  - repeat constructor; done.
  - constructor; [done|]. apply insertSorted_HdRel; auto.
Qed.

Lemma sortBy_Sorted l : Sorted (λ a b, cmp a b ≤ 0) (sortBy cmp l).
Proof.
  induction l; simpl; [constructor|by apply insertSorted_Sorted].
Qed.
End sort_facts.

(** ** The model at work *)

Example orderedTiles_ends :
  head orderedTiles = Some (numTile bamboo 1 0)
  ∧ last orderedTiles = Some (mkTile "dragon-white-135" dragon (VDragon white)).
Proof. by vm_compute. Qed.

Example sortHand_example :
  sortHand [windTile west 116; numTile dot 1 72; numTile bamboo 3 8;
            windTile east 108; numTile bamboo 1 0]
  = [numTile bamboo 1 0; numTile bamboo 3 8; numTile dot 1 72;
     windTile east 108; windTile west 116].
Proof. by vm_compute. Qed.

Example checkWin_threeTriplets : checkWin threeTriplets = true.
Proof. by vm_compute. Qed.

Example drawTile_example :
  drawTile 1 (smallTable [numTile bamboo 9 32; numTile dot 3 80])
  = Some (mkGame playing
            [ mkPlayer "player" "You"
                [numTile bamboo 1 0; numTile dot 9 104] [] false;
              mkPlayer "ai1" "AI Bot 1"
                [numTile bamboo 2 4; numTile bamboo 9 32; numTile dot 5 88]
                [windTile east 108] true;
              mkPlayer "ai2" "AI Bot 2"
                [numTile dot 1 72; numTile dot 2 76] [] true;
              mkPlayer "ai3" "AI Bot 3"
                [windTile west 116; windTile west 117] [] true ]
            1 [numTile dot 3 80] None (Some (numTile bamboo 9 32)) None,
          [ConsoleLog "AI Bot 1 drew a tile" []]).
Proof. by vm_compute. Qed.

Example discardTile_example :
  discardTile 3 "wind-west-116" (smallTable [])
  = Some (mkGame playing
            [ mkPlayer "player" "You"
                [numTile bamboo 1 0; numTile dot 9 104] [] false;
              mkPlayer "ai1" "AI Bot 1"
                [numTile bamboo 2 4; numTile dot 5 88]
                [windTile east 108] true;
              mkPlayer "ai2" "AI Bot 2"
                [numTile dot 1 72; numTile dot 2 76] [] true;
              mkPlayer "ai3" "AI Bot 3"
                [windTile west 117] [windTile west 116] true ]
            0 [] None None None,
          [ConsoleLog "AI Bot 3 discarded a tile" [];
           SetTimeoutDrawTile 0 500]).
Proof. by vm_compute. Qed.

(** ** Strings of values and keys *)

Lemma pretty_N_char_below (x : N) : Ascii.compare (pretty_N_char x) "a" = Lt.
Proof. unfold pretty_N_char. by repeat case_match. Qed.

Lemma pretty_N_go_below (x : N) (s : string) :
  (0 < x)%N → belowLetters (pretty_N_go x s).
Proof.
  revert s. induction (N.lt_wf_0 x) as [x _ IH]; intros s Hx.
  rewrite pretty_N_go_step by done.
  destruct (decide (x `div` 10 = 0)%N) as [Hzero|Hpos].
  - rewrite Hzero, pretty_N_go_0. eexists _, _. split; [done|].
    apply pretty_N_char_below.
  - apply IH; [apply N.div_lt; lia|by apply N.neq_0_lt_0].
Qed.

Lemma pretty_Z_below (n : Z) : belowLetters (pretty n).
Proof.
  destruct n as [|p|p].
  - by exists "0"%char, "".
  - apply pretty_N_go_below. lia.
  - by eexists "-"%char, _.
Qed.

Lemma name_not_below (v : Value) :
  isNumber v = false → ¬ belowLetters (valueString v).
Proof.
  intros Hv (c & s' & Heq & Hc).
  destruct v as [n|[]|[]|]; try discriminate Hv;
    simpl in Heq; injection Heq as <- _; vm_compute in Hc; discriminate Hc.
Qed.

Lemma valueString_inj (v v' : Value) :
  valueString v = valueString v' → v = v'.
Proof.
  intros Heq.
  destruct (isNumber v) eqn:Hv, (isNumber v') eqn:Hv'.
  - destruct v, v'; try discriminate. simpl in Heq.
    f_equal. by apply (inj pretty).
  - destruct v; try discriminate Hv. simpl in Heq.
    destruct (name_not_below v' Hv'). rewrite <-Heq. apply pretty_Z_below.
  - destruct v'; try discriminate Hv'. simpl in Heq.
    destruct (name_not_below v Hv). rewrite Heq. apply pretty_Z_below.
  - destruct v as [|[]|[]|], v' as [|[]|[]|];
      try discriminate Hv; try discriminate Hv'; simpl in Heq;
      first [reflexivity | discriminate Heq].
Qed.

Global Instance keyString_inj : Inj (=) (=) keyString.
Proof.
  intros [s v] [s' v']. unfold keyString.
  destruct s, s'; simpl; intros Heq; try discriminate Heq;
    injection Heq as Heq; by apply valueString_inj in Heq as ->.
Qed.

Lemma tileKey_keyString (t : Tile) : tileKey t = keyString (groupKey t).
Proof. done. Qed.

(** ** The tile ordering *)

Lemma localeCompare_antisym (a b : string) :
  0 < localeCompare a b → localeCompare b a ≤ 0.
Proof.
  unfold localeCompare. rewrite (String.compare_antisym a b).
  destruct (String.compare b a); simpl; lia.
Qed.

Lemma compareTiles_total (a b : Tile) :
  0 < compareTiles a b → compareTiles b a ≤ 0.
Proof.
  unfold compareTiles.
  destruct (decide (suitOrder (tile_suit a) = suitOrder (tile_suit b)))
    as [Heq|Hne].
  - rewrite !bool_decide_eq_false_2 by (intros ?; congruence).
    destruct (tile_value a), (tile_value b);
      first [lia | apply localeCompare_antisym].
  - rewrite !bool_decide_eq_true_2 by congruence. lia.
Qed.

Lemma ascii_below_letter (c c' : ascii) :
  Ascii.compare c "a" = Lt → (97 ≤ N_of_ascii c')%N → Ascii.compare c c' = Lt.
Proof.
  unfold Ascii.compare. rewrite !N.compare_lt_iff.
  change (N_of_ascii "a") with 97%N. lia.
Qed.

(** A numeral comes before every name. *)
Lemma numeral_name (va vb : Value) :
  isNumber va = true → isNumber vb = false →
  localeCompare (valueString va) (valueString vb) = -1.
Proof.
  intros Ha Hb. destruct va as [n| | |]; try discriminate Ha.
  unfold localeCompare. simpl valueString at 1.
  destruct (pretty_Z_below n) as (c & s' & -> & Hc).
  destruct vb as [|[]|[]|]; try discriminate Hb; simpl;
    rewrite (ascii_below_letter c _ Hc); (done || by vm_compute).
Qed.

Lemma name_numeral (va vb : Value) :
  isNumber va = false → isNumber vb = true →
  localeCompare (valueString va) (valueString vb) = 1.
Proof.
  intros Ha Hb. pose proof (numeral_name vb va Hb Ha) as Hlt.
  unfold localeCompare in *. rewrite String.compare_antisym.
  by destruct (String.compare (valueString vb) (valueString va)).
Qed.

Lemma names_trans (va vb vc : Value) :
  isNumber va = false → isNumber vb = false → isNumber vc = false →
  localeCompare (valueString va) (valueString vb) ≤ 0 →
  localeCompare (valueString vb) (valueString vc) ≤ 0 →
  localeCompare (valueString va) (valueString vc) ≤ 0.
Proof.
  intros Ha Hb Hc.
  destruct va as [|[]|[]|]; try discriminate Ha;
    destruct vb as [|[]|[]|]; try discriminate Hb;
    destruct vc as [|[]|[]|]; try discriminate Hc;
    unfold localeCompare; simpl; lia.
Qed.

Global Instance tileLe_trans : Transitive tileLe.
Proof.
  intros a b c. unfold tileLe, compareTiles.
  repeat case_bool_decide; try lia.
  destruct (tile_value a) as [x|wa|da|], (tile_value b) as [y|wb|db|],
           (tile_value c) as [z|wc|dc|];
    lazy beta iota;
    repeat match goal with
      | |- context [localeCompare (valueString ?va) (valueString ?vb)] =>
          first [ rewrite (numeral_name va vb eq_refl eq_refl)
                | rewrite (name_numeral va vb eq_refl eq_refl) ]
      end;
    try lia; by apply names_trans.
Qed.

Lemma sortHand_Sorted (h : list Tile) : Sorted tileLe (sortHand h).
Proof. apply sortBy_Sorted, compareTiles_total. Qed.

Lemma sortHand_StronglySorted (h : list Tile) :
  StronglySorted tileLe (sortHand h).
Proof. apply Sorted_StronglySorted, sortHand_Sorted. apply _. Qed.

Lemma sortHand_Permutation (h : list Tile) : sortHand h ≡ₚ h.
Proof. apply sortBy_Permutation. Qed.

(** ** The deck before the shuffle *)

Lemma orderedTiles_length : length orderedTiles = 136%nat.
Proof. vm_compute. reflexivity. Qed.

Lemma orderedTiles_ids : NoDup (tile_id <$> orderedTiles).
Proof. apply (bool_decide_unpack _). vm_compute. exact I. Qed.

Lemma orderedTiles_inFullSet :
  Forall (λ t, inFullSet (tile_suit t) (tile_value t)) orderedTiles.
Proof.
  unfold inFullSet.
  repeat (apply Forall_cons; split;
          [ first [ left; split; [reflexivity|eexists; split; [|reflexivity]; lia]
                  | right; left; split; [reflexivity|by eexists]
                  | right; right; split; [reflexivity|by eexists] ] | ]).
  apply Forall_nil_2.
Qed.

Lemma orderedTiles_copies s v :
  inFullSet s v → copiesOf s v orderedTiles = 4%nat.
Proof.
  intros [[Hs (n & Hn & ->)] | [[-> (w & ->)] | [-> (d & ->)]]].
  - assert (n = 1 ∨ n = 2 ∨ n = 3 ∨ n = 4 ∨ n = 5 ∨ n = 6 ∨ n = 7
            ∨ n = 8 ∨ n = 9) as Hcases by lia.
    destruct s; try discriminate Hs;
      destruct Hcases as [->|[->|[->|[->|[->|[->|[->|[->| ->]]]]]]]];
      vm_compute; reflexivity.
  - destruct w; vm_compute; reflexivity.
  - destruct d; vm_compute; reflexivity.
Qed.

(** ** A fresh deck and the deal *)

Lemma slice_app_drop {A} (a k : nat) (l : list A) :
  drop a l = slice a (a + k) l ++ drop (a + k) l.
Proof.
  unfold slice. replace (a + k - a)%nat with k by lia.
  by rewrite <-(drop_drop l k a), take_drop.
Qed.

(** The deal cuts the deck into four slices and the rest. *)
Lemma deck_slices (deck : list Tile) :
  deck = slice 0 13 deck ++ slice 13 26 deck ++ slice 26 39 deck
           ++ slice 39 52 deck ++ drop 52 deck.
Proof.
  rewrite <-(slice_app_drop 39 13), <-(slice_app_drop 26 13),
    <-(slice_app_drop 13 13).
  apply (slice_app_drop 0 13).
Qed.

Lemma slice_length {A} (a b : nat) (l : list A) :
  (b ≤ length l)%nat → length (slice a b l) = (b - a)%nat.
Proof. intros. unfold slice. rewrite length_take, length_drop. lia. Qed.

(** Five arrays without a common identifier, two by two. *)
Lemma NoDup_app5_disjoint {A} (l0 l1 l2 l3 r : list A) (i j : nat) k1 k2 :
  NoDup (l0 ++ l1 ++ l2 ++ l3 ++ r) →
  i ≠ j → [l0; l1; l2; l3] !! i = Some k1 → [l0; l1; l2; l3] !! j = Some k2 →
  ∀ x, x ∈ k1 → x ∉ k2.
Proof.
  rewrite !NoDup_app. intros (_ & H0 & _ & H1 & _ & H2 & _) Hij Hi Hj x.
  destruct i as [|[|[|[|?]]]], j as [|[|[|[|?]]]];
    simplify_eq/=; try done; intros Hx1 Hx2;
    first [ eapply H0; [exact Hx1|] | eapply H0; [exact Hx2|]
          | eapply H1; [exact Hx1|] | eapply H1; [exact Hx2|]
          | eapply H2; [exact Hx1|] | eapply H2; [exact Hx2|] ];
    rewrite ?elem_of_app; auto.
Qed.

Section deal.
(** The rearrangement made by the shuffling [sort] moves the tiles and
    neither drops nor repeats one. *)
Variable shuffle : list Tile → list Tile.
Hypothesis shuffle_Permutation : ∀ l, shuffle l ≡ₚ l.

Lemma createTileDeck_Permutation : createTileDeck shuffle ≡ₚ orderedTiles.
Proof. apply shuffle_Permutation. Qed.

Lemma createTileDeck_length : length (createTileDeck shuffle) = 136%nat.
Proof. by rewrite createTileDeck_Permutation, orderedTiles_length. Qed.

Lemma createTileDeck_ids : NoDup (tile_id <$> createTileDeck shuffle).
Proof. rewrite createTileDeck_Permutation. apply orderedTiles_ids. Qed.

(** Every tile of the deck, hence of every hand of a game, carries a value
    fitting its suit. *)
Lemma createTileDeck_valueFitsSuit :
  Forall valueFitsSuit (createTileDeck shuffle).
Proof.
  rewrite createTileDeck_Permutation.
  eapply Forall_impl; [apply orderedTiles_inFullSet|]. simpl.
  unfold valueFitsSuit.
  intros t [[-> (n & _ & ->)] | [[-> (w & ->)] | [-> (d & ->)]]]; done.
Qed.

(** C2. A fresh deck has 136 tiles; every combination of a numbered suit
    with a value 1 to 9, of [wind] with a wind and of [dragon] with a
    dragon occurs on exactly four tiles, and every tile carries such a
    combination; the identifiers are pairwise distinct; no tile has suit
    [flower]. *)
Theorem createTileDeck_full_set :
  length (createTileDeck shuffle) = 136%nat
  ∧ (∀ s v, inFullSet s v → copiesOf s v (createTileDeck shuffle) = 4%nat)
  ∧ Forall (λ t, inFullSet (tile_suit t) (tile_value t))
           (createTileDeck shuffle)
  ∧ NoDup (tile_id <$> createTileDeck shuffle)
  ∧ Forall (λ t, tile_suit t ≠ flower) (createTileDeck shuffle).
Proof.
  split; [apply createTileDeck_length|].
  split.
  { intros s v Hsv. unfold copiesOf.
    rewrite createTileDeck_Permutation. by apply orderedTiles_copies. }
  assert (Forall (λ t, inFullSet (tile_suit t) (tile_value t))
                 (createTileDeck shuffle)) as Hfull.
  { rewrite createTileDeck_Permutation. apply orderedTiles_inFullSet. }
  split; [done|]. split; [apply createTileDeck_ids|].
  eapply Forall_impl; [exact Hfull|]. simpl.
  intros t [[Hs _] | [[Hs _] | [Hs _]]] Hflower;
    rewrite Hflower in Hs; discriminate Hs.
Qed.

(** C3. [initializeGame] leaves four players; the hand of player [i] is
    the sorted slice of the deck from [13 * i] to [13 * i + 13]: thirteen
    tiles, each at most every later one in the tile ordering. Two hands
    share no tile, not even a tile identifier. The draw pile is the rest of
    the deck from position 52, 84 tiles, and the four hands with the draw
    pile hold the tiles of the 136-tile deck, each as often as the deck.
    The phase is [playing], the current player is 0 and there is no
    winner. *)
Theorem initializeGame_deal (difficulty : Param) (g0 : Game) :
  let deck := createTileDeck shuffle in
  let g := (initializeGame shuffle difficulty g0).1 in
  length deck = 136%nat
  ∧ length (players g) = 4%nat
  ∧ (∀ i p, players g !! i = Some p →
       hand p = sortHand (slice (13 * i) (13 * i + 13) deck)
       ∧ hand p ≡ₚ slice (13 * i) (13 * i + 13) deck
       ∧ length (hand p) = 13%nat
       ∧ StronglySorted tileLe (hand p)
       ∧ discarded p = [])
  ∧ (∀ i j p q, i ≠ j →
       players g !! i = Some p → players g !! j = Some q →
       ∀ t u, t ∈ hand p → u ∈ hand q → tile_id t ≠ tile_id u ∧ t ≠ u)
  ∧ drawPile g = drop 52 deck
  ∧ length (drawPile g) = 84%nat
  ∧ concat (hand <$> players g) ++ drawPile g ≡ₚ deck
  ∧ gameState g = playing
  ∧ currentPlayerIndex g = 0%nat
  ∧ winner g = None.
Proof.
  intros deck g. subst g. unfold initializeGame. fold deck. cbn [fst].
  cbn [players drawPile gameState currentPlayerIndex winner].
  pose proof createTileDeck_length as Hlen. fold deck in Hlen.
  pose proof createTileDeck_ids as Hids. fold deck in Hids.
  split; [done|]. split; [done|]. split.
  { intros i p Hi.
    destruct i as [|[|[|[|?]]]]; simplify_eq/=;
      (split; [done|]); (split; [apply sortHand_Permutation|]);
      (split; [rewrite sortHand_Permutation, slice_length; lia|]);
      (split; [apply sortHand_StronglySorted|done]). }
  split.
  { intros i j p q Hij Hi Hj t u Ht Hu.
    assert (tile_id t ≠ tile_id u) as Hne; [|split; [done|congruence]].
    rewrite (deck_slices deck), !fmap_app in Hids.
    intros Heq.
    assert (∀ k r,
      [mkPlayer "player" "You" (sortHand (slice 0 13 deck)) [] false;
       mkPlayer "ai1" "AI Bot 1" (sortHand (slice 13 26 deck)) [] true;
       mkPlayer "ai2" "AI Bot 2" (sortHand (slice 26 39 deck)) [] true;
       mkPlayer "ai3" "AI Bot 3" (sortHand (slice 39 52 deck)) [] true]
        !! k = Some r →
      ∃ ids, [tile_id <$> slice 0 13 deck; tile_id <$> slice 13 26 deck;
              tile_id <$> slice 26 39 deck; tile_id <$> slice 39 52 deck]
               !! k = Some ids
             ∧ ∀ x, x ∈ hand r → tile_id x ∈ ids) as Hsame.
    { intros k r Hk.
      destruct k as [|[|[|[|?]]]]; simplify_eq/=;
        (eexists; split; [done|]); intros x Hx;
        apply list_elem_of_fmap_2; by rewrite <-(sortHand_Permutation _). }
    destruct (Hsame i p Hi) as (idsp & Hidsp & Hp).
    destruct (Hsame j q Hj) as (idsq & Hidsq & Hq).
    eapply (NoDup_app5_disjoint _ _ _ _ _ i j idsp idsq Hids Hij Hidsp Hidsq);
      [by apply Hp|]. rewrite Heq. by apply Hq. }
  split; [done|].
  split; [rewrite length_drop; lia|].
  split; [|done].
  simpl. rewrite app_nil_r, !sortHand_Permutation, <-!app_assoc.
  by rewrite <-deck_slices.
Qed.
End deal.

Lemma createTileDeck_full_set_witness :
  (∀ l : list Tile, reverse l ≡ₚ l)
  ∧ length (createTileDeck reverse) = 136%nat
  ∧ (∀ s v, inFullSet s v → copiesOf s v (createTileDeck reverse) = 4%nat)
  ∧ Forall (λ t, inFullSet (tile_suit t) (tile_value t))
           (createTileDeck reverse)
  ∧ NoDup (tile_id <$> createTileDeck reverse)
  ∧ Forall (λ t, tile_suit t ≠ flower) (createTileDeck reverse).
Proof.
  split; [apply reverse_Permutation|].
  apply (createTileDeck_full_set reverse). apply reverse_Permutation.
Defined.

Lemma initializeGame_deal_witness :
  (∀ l : list Tile, reverse l ≡ₚ l)
  ∧ length (players (initializeGame reverse (PString "hard") initialGame).1)
    = 4%nat
  ∧ length (drawPile (initializeGame reverse (PString "hard") initialGame).1)
    = 84%nat
  ∧ gameState (initializeGame reverse (PString "hard") initialGame).1
    = playing.
Proof.
  split; [apply reverse_Permutation|].
  destruct (initializeGame_deal reverse reverse_Permutation
              (PString "hard") initialGame)
    as (_ & Hfour & _ & _ & _ & Hpile & _ & Hphase & _).
  by repeat split.
Defined.

(** ** The count map of [checkWin] *)

Lemma keyCount_cons k t h :
  keyCount k (t :: h)
  = ((if decide (tileKey t = k) then 1 else 0) + keyCount k h)%nat.
Proof. unfold keyCount. rewrite filter_cons. by case_decide. Qed.

Lemma foldl_countTile_lookup (h : list Tile) (m : gmap string nat) k :
  foldl countTile m h !! k
  = if decide (keyCount k h = 0%nat) then m !! k
    else Some (default 0 (m !! k) + keyCount k h)%nat.
Proof.
  revert m. induction h as [|t h IH]; intros m; [done|].
  simpl. rewrite IH, keyCount_cons. unfold countTile.
  destruct (decide (tileKey t = k)) as [->|Hne].
  - rewrite lookup_insert_eq. simpl.
    repeat case_decide; try lia; f_equal; lia.
  - rewrite lookup_insert_ne by done. simpl. by repeat case_decide.
Qed.

Lemma tileCounts_lookup (h : list Tile) k c :
  tileCounts h !! k = Some c ↔ c ≠ 0%nat ∧ c = keyCount k h.
Proof.
  unfold tileCounts. rewrite foldl_countTile_lookup, lookup_empty. simpl.
  case_decide; split; try done.
  - intros [? ->]. done.
  - intros [= <-]. done.
  - by intros [_ ->].
Qed.

Lemma keyCount_groupSize (h : list Tile) g :
  keyCount (keyString g) h = groupSize h g.
Proof.
  unfold keyCount, groupSize. induction h as [|t h IH]; [done|].
  rewrite !filter_cons, tileKey_keyString.
  destruct (decide (groupKey t = g)) as [->|Hne].
  - rewrite decide_True by done. simpl. by rewrite IH.
  - rewrite decide_False by (by intros ?%(inj keyString)). done.
Qed.

Lemma keyCount_pos (h : list Tile) k :
  keyCount k h ≠ 0%nat → ∃ t, t ∈ h ∧ tileKey t = k.
Proof.
  unfold keyCount. intros Hpos.
  destruct (filter (λ t, tileKey t = k) h) as [|t l] eqn:Hf; [done|].
  assert (t ∈ filter (λ t, tileKey t = k) h) as Hin
    by (rewrite Hf; apply list_elem_of_here).
  apply list_elem_of_filter in Hin as [??]. by exists t.
Qed.

Lemma tally_lengths (m : gmap string nat) :
  tally m
  = (length (filter (λ kc : string * nat, (2 ≤ kc.2)%nat) (map_to_list m)),
     length (filter (λ kc : string * nat, (3 ≤ kc.2)%nat) (map_to_list m))).
Proof.
  unfold tally. rewrite map_fold_foldr.
  induction (map_to_list m) as [|[k c] l IH]; [done|].
  simpl. rewrite IH, !filter_cons. simpl.
  by repeat case_bool_decide; repeat case_decide; try lia.
Qed.

(** The entries of the count map with a count of at least [n] are the
    groups of at least [n] tiles. *)
Lemma counts_groups (n : nat) (h : list Tile) :
  (1 ≤ n)%nat →
  filter (λ kc : string * nat, (n ≤ kc.2)%nat) (map_to_list (tileCounts h))
  ≡ₚ (λ g, (keyString g, groupSize h g))
       <$> filter (λ g, (n ≤ groupSize h g)%nat) (groups h).
Proof.
  intros Hn. apply NoDup_Permutation.
  - apply NoDup_filter, NoDup_map_to_list.
  - apply NoDup_fmap_2.
    + intros g g' [= Heq _]. by apply (inj keyString).
    + apply NoDup_filter, NoDup_remove_dups.
  - intros [k c]. rewrite list_elem_of_filter, elem_of_map_to_list,
      tileCounts_lookup, list_elem_of_fmap. simpl. split.
    + intros (Hnc & Hc & ->).
      apply keyCount_pos in Hc as (t & Ht & <-).
      exists (groupKey t). rewrite tileKey_keyString, keyCount_groupSize.
      split; [done|]. apply list_elem_of_filter.
      rewrite tileKey_keyString, keyCount_groupSize in Hnc. split; [done|].
      apply elem_of_remove_dups, list_elem_of_fmap. by exists t.
    + intros (g & [= -> ->] & [Hng _]%list_elem_of_filter).
      rewrite keyCount_groupSize. repeat split; [done|lia].
Qed.

Lemma tally_groups (h : list Tile) :
  tally (tileCounts h) = (groupsOfAtLeast 2 h, groupsOfAtLeast 3 h).
Proof.
  rewrite tally_lengths. unfold groupsOfAtLeast.
  rewrite (counts_groups 2), (counts_groups 3) by lia.
  by rewrite !length_fmap.
Qed.

Lemma filter_none {A} (P : A → Prop) `{!∀ x, Decision (P x)} (l : list A) :
  (∀ x, x ∈ l → ¬ P x) → filter P l = [].
Proof.
  induction l as [|x l IH]; intros Hno; [done|].
  rewrite filter_cons_False by (apply Hno; left).
  apply IH. intros y Hy. apply Hno. by right.
Qed.

(** C1. On a hand of 14 tiles [checkWin] answers [true] exactly when, the
    tiles grouped by identical (suit, value), at least three groups hold
    three tiles or more, or at least five groups hold two tiles or more.
    Runs earn nothing: a hand without two equal tiles loses, and so does
    the hand of four runs and a pair. *)
Theorem checkWin_groups (h : list Tile) :
  length h = 14%nat →
  (checkWin h = true ↔
     (3 ≤ groupsOfAtLeast 3 h)%nat ∨ (5 ≤ groupsOfAtLeast 2 h)%nat)
  ∧ (NoDup (groupKey <$> h) → checkWin h = false)
  ∧ checkWin fourRunsAndPair = false.
Proof.
  intros Hlen.
  assert (checkWin h = true ↔
     (3 ≤ groupsOfAtLeast 3 h)%nat ∨ (5 ≤ groupsOfAtLeast 2 h)%nat) as Hiff.
  { unfold checkWin. rewrite bool_decide_eq_false_2 by (by intros []).
    rewrite tally_groups, orb_true_iff, !bool_decide_eq_true. done. }
  split; [done|]. split; [|by vm_compute].
  intros Hdistinct. apply not_true_iff_false. rewrite Hiff.
  assert (∀ n, (2 ≤ n)%nat → groupsOfAtLeast n h = 0%nat) as Hnone.
  { intros n Hn. unfold groupsOfAtLeast.
    rewrite filter_none; [done|]. intros g _ Hg.
    assert (groupSize h g ≤ 1)%nat; [|lia].
    unfold groupSize. clear Hlen Hiff Hg.
    induction h as [|t h IH]; [simpl; lia|].
    apply NoDup_cons in Hdistinct as [Hnotin Hdistinct].
    rewrite filter_cons. case_decide as Ht; [|by apply IH].
    simpl. rewrite filter_none; [simpl; lia|].
    intros t' Ht' Heq. apply Hnotin.
    rewrite Ht, <-Heq. by apply list_elem_of_fmap_2. }
  rewrite !Hnone by lia. lia.
Qed.

Lemma checkWin_groups_witness :
  length threeTriplets = 14%nat
  ∧ (checkWin threeTriplets = true ↔
       (3 ≤ groupsOfAtLeast 3 threeTriplets)%nat
       ∨ (5 ≤ groupsOfAtLeast 2 threeTriplets)%nat).
Proof.
  split; [reflexivity|].
  apply (checkWin_groups threeTriplets). reflexivity.
Defined.

(** C10. A hand whose size is not 14 never wins, whatever it holds. *)
Theorem checkWin_other_size (h : list Tile) :
  length h ≠ 14%nat → checkWin h = false.
Proof.
  intros Hlen. unfold checkWin. by rewrite bool_decide_eq_true_2.
Qed.

Lemma checkWin_other_size_witness :
  length fiveTriplets ≠ 14%nat ∧ checkWin fiveTriplets = false.
Proof.
  split; [by vm_compute|]. apply (checkWin_other_size fiveTriplets).
  by vm_compute.
Defined.

(** ** The isolation test *)

Lemma entries_lookup {A} (l : list A) i e :
  entries l !! i = Some e ↔ e.1 = i ∧ l !! i = Some e.2.
Proof.
  unfold entries. rewrite list_lookup_imap. destruct e as [j x]. simpl.
  destruct (l !! i) as [y|]; simpl; split; try by intros [??].
  - by intros [= <- <-].
  - by intros [-> [= ->]].
  - done.
Qed.

Lemma hasNeighbor_true (h : list Tile) i t :
  hasNeighbor h i t = true ↔
  ∃ j o, j ≠ i ∧ h !! j = Some o ∧ isNeighbor t o = true.
Proof.
  unfold hasNeighbor. rewrite existsb_exists. split.
  - intros ([j o] & Hin & Hn). simpl in Hn.
    apply list_elem_of_In, list_elem_of_lookup in Hin as [k Hk].
    apply entries_lookup in Hk as [<- Ho]. simpl in *.
    case_bool_decide; [done|]. exists j, o. by repeat split.
  - intros (j & o & Hne & Ho & Hn). exists (j, o). split.
    + apply list_elem_of_In, list_elem_of_lookup. exists j.
      by apply entries_lookup.
    + simpl. by rewrite bool_decide_eq_false_2.
Qed.

Lemma hasNeighbor_false (h : list Tile) i t :
  hasNeighbor h i t = false ↔
  ∀ j o, j ≠ i → h !! j = Some o → isNeighbor t o = false.
Proof.
  split.
  - intros Hno j o Hne Ho. apply not_true_iff_false. intros Hn.
    apply not_true_iff_false in Hno. apply Hno, hasNeighbor_true.
    by exists j, o.
  - intros Hall. apply not_true_iff_false.
    intros (j & o & Hne & Ho & Hn)%hasNeighbor_true.
    by rewrite (Hall j o) in Hn.
Qed.

(** On tiles whose value fits their suit the callback of [some] is the
    neighbour relation of the specification. *)
Lemma isNeighbor_spec (t o : Tile) :
  valueFitsSuit t → valueFitsSuit o →
  isNeighbor t o = true ↔ specNeighbor t o.
Proof.
  unfold valueFitsSuit, isNeighbor, specNeighbor.
  intros Ht Ho. case_bool_decide as Hsuit.
  { split; [done|]. by intros [? _]. }
  rewrite <-Hsuit in Ho.
  destruct (tile_value t) as [x| | |] eqn:Hvt,
           (tile_value o) as [y| | |] eqn:Hvo;
    simpl in *; rewrite <-?Ht, <-?Ho; try congruence;
    rewrite ?bool_decide_eq_true;
    (split;
     [ intros Hn; split; [done|]; first [by eexists _, _ | done]
     | intros [_ Hn];
       first [ by destruct Hn as (? & ? & [= <-] & [= <-] & ?) | done ] ]).
Qed.

Lemma findIsolatedTiles_filter (h : list Tile) :
  findIsolatedTiles h = (filter (isolatedEntry h) (entries h)).*2.
Proof.
  unfold findIsolatedTiles.
  enough (∀ l acc,
    foldl (λ isolated (e : nat * Tile),
             if hasNeighbor h e.1 e.2 then isolated else isolated ++ [e.2])
          acc l = acc ++ (filter (isolatedEntry h) l).*2) as Hgen
    by apply (Hgen _ []).
  induction l as [|e l IH]; intros acc; simpl.
  { by rewrite app_nil_r. }
  rewrite IH, filter_cons.
  destruct (decide (isolatedEntry h e)) as [Hiso|Hiso]; unfold isolatedEntry in Hiso.
  - rewrite Hiso. by rewrite fmap_cons, <-app_assoc.
  - by apply not_false_is_true in Hiso as ->.
Qed.

Lemma elem_of_findIsolatedTiles (h : list Tile) t :
  t ∈ findIsolatedTiles h ↔ ∃ i, h !! i = Some t ∧ hasNeighbor h i t = false.
Proof.
  rewrite findIsolatedTiles_filter, list_elem_of_fmap. split.
  - intros ([i t'] & -> & [Hiso Hin]%list_elem_of_filter).
    apply list_elem_of_lookup in Hin as [k [Hk Ht]%entries_lookup].
    simpl in *. subst k. by exists i.
  - intros (i & Hi & Hn). exists (i, t). split; [done|].
    apply list_elem_of_filter. split; [done|].
    apply list_elem_of_lookup. exists i. by apply entries_lookup.
Qed.

(** C4. In a hand whose tiles carry values fitting their suits, the tile at
    a position has no neighbour for [findIsolatedTiles] exactly when no tile
    at another position is a neighbour in the sense of the specification,
    and the result of [findIsolatedTiles] holds exactly the tiles of such
    positions. Three tiles 1, 5, 9 of one numbered suit are all isolated;
    of three tiles 1, 2, 3 none is. *)
Theorem isolation_test (h : list Tile) :
  Forall valueFitsSuit h →
  (∀ i t, h !! i = Some t →
     hasNeighbor h i t = false ↔
     ∀ j o, j ≠ i → h !! j = Some o → ¬ specNeighbor t o)
  ∧ (∀ t, t ∈ findIsolatedTiles h ↔
       ∃ i, h !! i = Some t ∧
            ∀ j o, j ≠ i → h !! j = Some o → ¬ specNeighbor t o)
  ∧ (∀ s a b c, numbered s = true →
       findIsolatedTiles
         [mkTile a s (VNum 1); mkTile b s (VNum 5); mkTile c s (VNum 9)]
       = [mkTile a s (VNum 1); mkTile b s (VNum 5); mkTile c s (VNum 9)])
  ∧ (∀ s a b c, numbered s = true →
       findIsolatedTiles
         [mkTile a s (VNum 1); mkTile b s (VNum 2); mkTile c s (VNum 3)]
       = []).
Proof.
  intros Hfit. rewrite Forall_lookup in Hfit.
  assert (∀ i t, h !! i = Some t →
     hasNeighbor h i t = false ↔
     ∀ j o, j ≠ i → h !! j = Some o → ¬ specNeighbor t o) as Hpos.
  { intros i t Hi. rewrite hasNeighbor_false.
    split; intros Hall j o Hne Ho; specialize (Hall j o Hne Ho).
    - rewrite <-isNeighbor_spec by eauto. by rewrite Hall.
    - apply not_true_iff_false. by rewrite isNeighbor_spec by eauto. }
  split; [done|]. split.
  { intros t. rewrite elem_of_findIsolatedTiles.
    split; intros (i & Hi & Hiso); exists i; (split; [done|]);
      by apply (Hpos i t Hi). }
  split; intros s a b c Hs; destruct s; try discriminate Hs; reflexivity.
Qed.

Lemma isolation_test_witness :
  Forall valueFitsSuit [numTile dot 1 72; windTile east 108; numTile dot 3 80]
  ∧ ∀ t, t ∈ findIsolatedTiles
               [numTile dot 1 72; windTile east 108; numTile dot 3 80] ↔
         ∃ i, [numTile dot 1 72; windTile east 108; numTile dot 3 80] !! i
              = Some t ∧
              ∀ j o, j ≠ i →
                [numTile dot 1 72; windTile east 108; numTile dot 3 80] !! j
                = Some o → ¬ specNeighbor t o.
Proof.
  assert (Forall valueFitsSuit
            [numTile dot 1 72; windTile east 108; numTile dot 3 80]) as Hfit
    by (repeat constructor).
  split; [exact Hfit|].
  apply (isolation_test
           [numTile dot 1 72; windTile east 108; numTile dot 3 80] Hfit).
Defined.

(** ** The opponent policy *)

Lemma head_filter_list_find {A} (P : A → Prop) `{!∀ x, Decision (P x)}
    (l : list A) :
  head (filter P l) = snd <$> list_find P l.
Proof.
  induction l as [|x l IH]; simpl; [done|].
  rewrite filter_cons. destruct (decide (P x)); simpl; [done|].
  rewrite IH. by destruct (list_find P l) as [[??]|].
Qed.

(** The first entry of the result of [findIsolatedTiles] is the first tile
    of the hand, in hand order, which has no neighbour. *)
Lemma findIsolatedTiles_first (h : list Tile) i0 t0 :
  h !! i0 = Some t0 → hasNeighbor h i0 t0 = false →
  ∃ i t rest,
    findIsolatedTiles h = t :: rest
    ∧ h !! i = Some t ∧ hasNeighbor h i t = false
    ∧ ∀ j o, (j < i)%nat → h !! j = Some o → hasNeighbor h j o = true.
Proof.
  intros Hi0 Hn0.
  destruct (list_find (isolatedEntry h) (entries h)) as [[i [i' t]]|] eqn:Hfind.
  - pose proof (head_filter_list_find (isolatedEntry h) (entries h)) as Hhead.
    rewrite Hfind in Hhead. simpl in Hhead.
    apply list_find_Some in Hfind as (Hi & Hiso & Hfirst).
    apply entries_lookup in Hi as [Heq Hi]. simpl in Heq, Hi. subst i'.
    rewrite findIsolatedTiles_filter.
    destruct (filter (isolatedEntry h) (entries h)) as [|e rest]; [done|].
    injection Hhead as ->. exists i, t, (rest.*2).
    split; [done|]. split; [done|]. split; [done|].
    intros j o Hlt Hj. apply not_false_iff_true.
    apply (Hfirst j (j, o)); [by apply entries_lookup|done].
  - apply list_find_None in Hfind. rewrite Forall_forall in Hfind.
    destruct (Hfind (i0, t0)); [|done].
    apply list_elem_of_lookup. exists i0. by apply entries_lookup.
Qed.

(** C5. If some tile of the hand has no neighbour, the hard tier returns
    the first such tile in hand order, whatever the random source holds,
    and takes no draw from the source. *)
Theorem hard_discards_first_isolated (h : list Tile) (i0 : nat) (t0 : Tile) :
  h !! i0 = Some t0 →
  hasNeighbor h i0 t0 = false →
  ∃ i t,
    h !! i = Some t
    ∧ hasNeighbor h i t = false
    ∧ (∀ j o, (j < i)%nat → h !! j = Some o → hasNeighbor h j o = true)
    ∧ ∀ rs, selectTileToDiscard rs h (PString "hard") = (Some t, rs).
Proof.
  intros Hi0 Hn0.
  destruct (findIsolatedTiles_first h i0 t0 Hi0 Hn0)
    as (i & t & rest & Hiso & Hi & Hn & Hfirst).
  exists i, t. repeat (split; [done|]). intros rs.
  unfold selectTileToDiscard.
  rewrite bool_decide_eq_false_2
    by (intros Hlen; by rewrite (nil_length_inv _ Hlen) in Hi0).
  rewrite (bool_decide_eq_false_2 (PString "hard" = PString "easy")) by done.
  rewrite (bool_decide_eq_false_2 (PString "hard" = PString "medium")) by done.
  rewrite (bool_decide_eq_true_2 (PString "hard" = PString "hard")) by done.
  unfold findStrategicDiscard. by rewrite Hiso.
Qed.

Lemma hard_discards_first_isolated_witness :
  ∃ i t,
    [numTile bamboo 1 0; numTile bamboo 2 4; numTile dot 5 88;
     numTile dot 9 104] !! i = Some t
    ∧ hasNeighbor [numTile bamboo 1 0; numTile bamboo 2 4; numTile dot 5 88;
                   numTile dot 9 104] i t = false
    ∧ (∀ j o, (j < i)%nat →
         [numTile bamboo 1 0; numTile bamboo 2 4; numTile dot 5 88;
          numTile dot 9 104] !! j = Some o →
         hasNeighbor [numTile bamboo 1 0; numTile bamboo 2 4; numTile dot 5 88;
                      numTile dot 9 104] j o = true)
    ∧ ∀ rs, selectTileToDiscard rs
              [numTile bamboo 1 0; numTile bamboo 2 4; numTile dot 5 88;
               numTile dot 9 104] (PString "hard") = (Some t, rs).
Proof.
  apply (hard_discards_first_isolated
           [numTile bamboo 1 0; numTile bamboo 2 4; numTile dot 5 88;
            numTile dot 9 104] 3 (numTile dot 9 104)).
  - reflexivity.
  - reflexivity.
Defined.

(** C9 as the specification words it fails: the parameter ["expert"] is
    none of the three tiers, and with it the opponent discards the first
    tile of the hand, bamboo 1, where the medium tier discards the only
    isolated tile, dot 9. *)
Lemma unknown_difficulty_is_not_medium :
  ¬ (∀ p, p ∉ tiers →
       ∀ rs h, selectTileToDiscard rs h (difficultyOf p) = mediumPolicy rs h).
Proof.
  intros Hclaim.
  specialize (Hclaim (PString "expert")).
  assert (PString "expert" ∉ tiers) as Hnot.
  { unfold tiers. rewrite !not_elem_of_cons. repeat split; try done.
    apply not_elem_of_nil. }
  specialize (Hclaim Hnot zeros
                [numTile bamboo 1 0; numTile bamboo 2 1; numTile dot 9 2]).
  apply (f_equal fst) in Hclaim. vm_compute in Hclaim. discriminate Hclaim.
Qed.

(** C9, amended. An absent or empty difficulty parameter is replaced by
    ["medium"], so the opponent follows the medium tier; any other
    parameter which is none of the three tiers is kept, and with it the
    opponent discards the first tile of the hand without a random draw. *)
Theorem difficulty_fallback (p : Param) (rs : RandomSource) (h : list Tile) :
  (p = PUndefined ∨ p = PString "" →
     difficultyOf p = PString "medium"
     ∧ selectTileToDiscard rs h (difficultyOf p) = mediumPolicy rs h)
  ∧ (p ≠ PUndefined → p ≠ PString "" → p ∉ tiers →
     difficultyOf p = p
     ∧ selectTileToDiscard rs h (difficultyOf p) = (h !! 0%nat, rs)).
Proof.
  split.
  - by intros [-> | ->].
  - intros Hundef Hempty Htiers.
    assert (difficultyOf p = p) as ->.
    { unfold difficultyOf. destruct p as [|s|l]; simpl; try done.
      by rewrite bool_decide_eq_false_2 by congruence. }
    split; [done|].
    unfold tiers in Htiers. rewrite !not_elem_of_cons in Htiers.
    destruct Htiers as (? & ? & ? & _).
    unfold selectTileToDiscard.
    case_bool_decide as Hlen.
    { by rewrite (nil_length_inv _ Hlen). }
    by rewrite !bool_decide_eq_false_2 by done.
Qed.

Lemma difficulty_fallback_witness :
  selectTileToDiscard zeros [numTile bamboo 1 0; numTile dot 9 1]
    (difficultyOf PUndefined)
  = mediumPolicy zeros [numTile bamboo 1 0; numTile dot 9 1]
  ∧ selectTileToDiscard zeros [numTile bamboo 1 0; numTile dot 9 1]
      (difficultyOf (PString "expert"))
    = (Some (numTile bamboo 1 0), zeros).
Proof.
  split.
  - apply (proj1 (difficulty_fallback PUndefined zeros
                    [numTile bamboo 1 0; numTile dot 9 1])).
    by left.
  - apply (proj2 (difficulty_fallback (PString "expert") zeros
                    [numTile bamboo 1 0; numTile dot 9 1])); [done|done|].
    unfold tiers. rewrite !not_elem_of_cons.
    repeat split; try done. apply not_elem_of_nil.
Defined.

(** ** Draw and discard *)

(** C6. On an empty draw pile [drawTile] sets the phase to [finished] and
    changes no other cell: players (hands and discards), draw pile, last
    drawn tile, selected tile, current player and winner are as before, so
    where no winner was recorded none is; a further call, for any player,
    leaves the game it finds unchanged. *)
Theorem drawTile_empty_pile (playerIndex : nat) (g : Game) :
  drawPile g = [] →
  ∃ g' effects,
    drawTile playerIndex g = Some (g', effects)
    ∧ gameState g' = finished
    ∧ winner g' = winner g
    ∧ (winner g = None → winner g' = None)
    ∧ players g' = players g
    ∧ drawPile g' = drawPile g
    ∧ lastDrawnTile g' = lastDrawnTile g
    ∧ selectedTile g' = selectedTile g
    ∧ currentPlayerIndex g' = currentPlayerIndex g
    ∧ ∀ j, drawTile j g' = Some (g', effects).
Proof.
  intros Hpile. unfold drawTile. rewrite Hpile.
  eexists _, _. split; [reflexivity|]. simpl. by repeat split.
Qed.

Lemma drawTile_empty_pile_witness :
  ∃ g' effects,
    drawTile 2 (smallTable []) = Some (g', effects)
    ∧ gameState g' = finished
    ∧ winner g' = winner (smallTable [])
    ∧ (winner (smallTable []) = None → winner g' = None)
    ∧ players g' = players (smallTable [])
    ∧ drawPile g' = drawPile (smallTable [])
    ∧ lastDrawnTile g' = lastDrawnTile (smallTable [])
    ∧ selectedTile g' = selectedTile (smallTable [])
    ∧ currentPlayerIndex g' = currentPlayerIndex (smallTable [])
    ∧ ∀ j, drawTile j g' = Some (g', effects).
Proof. apply (drawTile_empty_pile 2 (smallTable [])). reflexivity. Defined.

(** C7. [discardTile] with an identifier which no tile of the player's hand
    carries returns the game it was given and hands nothing to the
    environment: no hand or discard pile changes, the current player stays,
    selected and last drawn tile stay, no timer is set, nothing is thrown. *)
Theorem discardTile_absent (playerIndex : nat) (tileId : string) (g : Game)
    (p : Player) :
  players g !! playerIndex = Some p →
  (∀ t, t ∈ hand p → tile_id t ≠ tileId) →
  discardTile playerIndex tileId g = Some (g, []).
Proof.
  intros Hp Habsent. unfold discardTile. rewrite Hp.
  destruct (list_find _ _) as [[i t]|] eqn:Hfind; [|done].
  apply list_find_Some in Hfind as (Hi & Hid & _).
  destruct (Habsent t); [by eapply list_elem_of_lookup_2|done].
Qed.

Lemma discardTile_absent_witness :
  discardTile 1 "dot-9-104" (smallTable [numTile dot 3 80])
  = Some (smallTable [numTile dot 3 80], []).
Proof.
  apply (discardTile_absent 1 "dot-9-104" (smallTable [numTile dot 3 80])
           (mkPlayer "ai1" "AI Bot 1" [numTile bamboo 2 4; numTile dot 5 88]
              [windTile east 108] true)).
  - reflexivity.
  - apply Forall_forall. repeat constructor; by vm_compute.
Defined.

Lemma list_find_id_elem (tileId : string) (h : list Tile) :
  tileId ∈ tile_id <$> h →
  ∃ i t, list_find (λ t, tile_id t = tileId) h = Some (i, t)
         ∧ h !! i = Some t ∧ tile_id t = tileId.
Proof.
  intros (t0 & Hid & Hin)%list_elem_of_fmap.
  destruct (list_find (λ t, tile_id t = tileId) h) as [[i t]|] eqn:Hfind.
  - apply list_find_Some in Hfind as (Hi & Hid' & _). by exists i, t.
  - apply list_find_None in Hfind.
    rewrite Forall_forall in Hfind. by destruct (Hfind t0).
Qed.

(** C8. For a player of a four-player game and a non-empty draw pile,
    [drawTile] succeeds and makes the hand one tile longer; a following
    [discardTile] of any identifier found in that hand succeeds, brings the
    hand back to its size before the draw, appends the discarded tile (a
    tile of the hand carrying the identifier) to the player's discard pile,
    which thus grows by one, and sets the current player to
    [(playerIndex + 1) mod 4]. *)
Theorem draw_then_discard (playerIndex : nat) (g : Game) (p : Player) :
  length (players g) = 4%nat →
  players g !! playerIndex = Some p →
  drawPile g ≠ [] →
  ∃ g1 effects1 p1,
    drawTile playerIndex g = Some (g1, effects1)
    ∧ players g1 !! playerIndex = Some p1
    ∧ length (hand p1) = S (length (hand p))
    ∧ discarded p1 = discarded p
    ∧ ∀ tileId, tileId ∈ tile_id <$> hand p1 →
        ∃ g2 effects2 p2 t,
          discardTile playerIndex tileId g1 = Some (g2, effects2)
          ∧ players g2 !! playerIndex = Some p2
          ∧ length (hand p2) = length (hand p)
          ∧ t ∈ hand p1 ∧ tile_id t = tileId
          ∧ discarded p2 = discarded p ++ [t]
          ∧ length (discarded p2) = S (length (discarded p))
          ∧ currentPlayerIndex g2 = ((playerIndex + 1) `mod` 4)%nat.
Proof.
  intros Hfour Hp Hpile.
  destruct (drawPile g) as [|drawn rest] eqn:Hdraw; [done|].
  assert (playerIndex < length (players g))%nat as Hlt
    by by eapply lookup_lt_Some.
  assert (length (sortHand (hand p ++ [drawn])) = S (length (hand p)))
    as Hlen.
  { unfold sortHand. rewrite length_sortBy, length_app. simpl. lia. }
  unfold drawTile. rewrite Hdraw, Hp.
  set (hand1 := sortHand (hand p ++ [drawn])) in *.
  eexists _, _, _. split; [reflexivity|]. cbn -[hand1].
  split; [by apply list_lookup_insert_eq|].
  split; [done|]. split; [done|].
  intros tileId Hin. change (tileId ∈ tile_id <$> hand1) in Hin.
  apply list_find_id_elem in Hin as (i & t & Hfind & Hi & Hid).
  unfold discardTile. cbn -[hand1].
  rewrite list_lookup_insert_eq by done. cbn -[hand1]. rewrite Hfind.
  eexists _, _, _, t. split; [reflexivity|]. cbn -[hand1].
  split; [apply list_lookup_insert_eq; by rewrite length_insert|].
  split; [cbn -[hand1]; rewrite length_delete by (by eexists); lia|].
  split; [by eapply list_elem_of_lookup_2|].
  split; [done|]. split; [done|].
  split; [cbn -[hand1]; rewrite length_app; simpl; lia|].
  by rewrite !length_insert, Hfour.
Qed.

Lemma draw_then_discard_witness :
  ∃ g1 effects1 p1,
    drawTile 1 (smallTable [numTile dot 3 80]) = Some (g1, effects1)
    ∧ players g1 !! 1%nat = Some p1
    ∧ length (hand p1) = 3%nat
    ∧ discarded p1 = [windTile east 108]
    ∧ ∀ tileId, tileId ∈ tile_id <$> hand p1 →
        ∃ g2 effects2 p2 t,
          discardTile 1 tileId g1 = Some (g2, effects2)
          ∧ players g2 !! 1%nat = Some p2
          ∧ length (hand p2) = 2%nat
          ∧ t ∈ hand p1 ∧ tile_id t = tileId
          ∧ discarded p2 = [windTile east 108; t]
          ∧ length (discarded p2) = 2%nat
          ∧ currentPlayerIndex g2 = 2%nat.
Proof.
  apply (draw_then_discard 1 (smallTable [numTile dot 3 80])
           (mkPlayer "ai1" "AI Bot 1" [numTile bamboo 2 4; numTile dot 5 88]
              [windTile east 108] true)).
  - reflexivity.
  - reflexivity.
  - discriminate.
Defined.

(** * Further properties of the engine *)

(** ** compareTiles as a comparator *)

Lemma suitOrder_inj (s s' : TileSuit) : suitOrder s = suitOrder s' → s = s'.
Proof. by destruct s, s'. Qed.

Lemma localeCompare_zero (a b : string) : localeCompare a b = 0 ↔ a = b.
Proof.
  unfold localeCompare. split.
  - destruct (String.compare a b) eqn:Hc; try done.
    intros _. by apply String.compare_eq_iff.
  - intros ->. pose proof (String.compare_antisym b b) as Hb.
    by destruct (String.compare b b).
Qed.

Lemma localeCompare_flip (a b : string) :
  localeCompare a b < 0 ↔ 0 < localeCompare b a.
Proof.
  unfold localeCompare. rewrite (String.compare_antisym a b).
  destruct (String.compare b a); simpl; lia.
Qed.

(** X1. [compareTiles] calls two tiles equal exactly when they have the
    same suit and the same value. *)
Theorem compareTiles_zero_iff (a b : Tile) :
  compareTiles a b = 0 ↔ groupKey a = groupKey b.
Proof.
  unfold compareTiles, groupKey. case_bool_decide as Hsuit.
  - split; [lia|]. intros [= Hs _]. by rewrite Hs in Hsuit.
  - apply suitOrder_inj in Hsuit. rewrite Hsuit.
    destruct (tile_value a) as [x| | |] eqn:Ha,
             (tile_value b) as [y| | |] eqn:Hb;
      lazy beta iota;
      first [ split; [intros ?; do 2 f_equal; lia | intros [= ?]; lia]
            | rewrite localeCompare_zero; split;
              [ intros ?%valueString_inj; congruence
              | intros ?; congruence ] ].
Qed.

(** X2. [compareTiles] is a consistent comparator: a tile equals itself,
    exchanging the arguments exchanges "before" and "after", and "not
    after" is transitive. *)
Theorem compareTiles_consistent :
  (∀ a, compareTiles a a = 0)
  ∧ (∀ a b, compareTiles a b < 0 ↔ 0 < compareTiles b a)
  ∧ (∀ a b c, compareTiles a b ≤ 0 → compareTiles b c ≤ 0 →
       compareTiles a c ≤ 0).
Proof.
  split; [intros a; by apply compareTiles_zero_iff|]. split.
  - intros a b. unfold compareTiles.
    destruct (decide (suitOrder (tile_suit a) = suitOrder (tile_suit b)))
      as [Heq|Hne].
    + rewrite !bool_decide_eq_false_2 by (intros ?; congruence).
      destruct (tile_value a), (tile_value b);
        first [lia | apply localeCompare_flip].
    + rewrite !bool_decide_eq_true_2 by congruence. lia.
  - intros a b c. apply tileLe_trans.
Qed.

Lemma StronglySorted_lookup_lt {A} (R : relation A) (l : list A) i j a b :
  StronglySorted R l → (i < j)%nat → l !! i = Some a → l !! j = Some b →
  R a b.
Proof.
  intros Hl. revert i j. induction Hl as [|x l Hl IH Hx]; intros i j Hij Hi Hj.
  { by rewrite lookup_nil in Hi. }
  destruct j as [|j]; [lia|]. destruct i as [|i]; simplify_eq/=.
  - rewrite Forall_forall in Hx. apply Hx. by eapply list_elem_of_lookup_2.
  - apply (IH i j); [lia|done|done].
Qed.

Lemma tileLe_suitOrder (a b : Tile) :
  tileLe a b → suitOrder (tile_suit a) ≤ suitOrder (tile_suit b).
Proof. unfold tileLe, compareTiles. case_bool_decide; lia. Qed.

Lemma tileLe_numbers (a b : Tile) x y :
  tileLe a b → tile_suit a = tile_suit b →
  tile_value a = VNum x → tile_value b = VNum y → x ≤ y.
Proof.
  unfold tileLe, compareTiles. intros Hle Hs Ha Hb.
  rewrite bool_decide_eq_false_2, Ha, Hb in Hle by (rewrite Hs; tauto). lia.
Qed.

(** X3. A hand after sorting shows its suits in the order bamboo,
    character, dot, wind, dragon, flower, and the numbers of one suit in
    ascending order. *)
Theorem sortHand_grouped (h : list Tile) i j a b :
  (i < j)%nat → sortHand h !! i = Some a → sortHand h !! j = Some b →
  suitOrder (tile_suit a) ≤ suitOrder (tile_suit b)
  ∧ (tile_suit a = tile_suit b →
     ∀ x y, tile_value a = VNum x → tile_value b = VNum y → x ≤ y).
Proof.
  intros Hij Hi Hj.
  assert (tileLe a b) as Hle
    by exact (StronglySorted_lookup_lt _ _ i j a b
                (sortHand_StronglySorted h) Hij Hi Hj).
  split; [by apply tileLe_suitOrder|].
  intros Hs x y Ha Hb. by eapply tileLe_numbers.
Qed.

Lemma sortHand_grouped_witness :
  suitOrder (tile_suit (numTile bamboo 3 8))
  ≤ suitOrder (tile_suit (windTile east 108))
  ∧ (tile_suit (numTile bamboo 3 8) = tile_suit (windTile east 108) →
     ∀ x y, tile_value (numTile bamboo 3 8) = VNum x →
            tile_value (windTile east 108) = VNum y → x ≤ y).
Proof.
  apply (sortHand_grouped
           [windTile west 116; numTile dot 1 72; numTile bamboo 3 8;
            windTile east 108; numTile bamboo 1 0] 1 3).
  - lia.
  - reflexivity.
  - reflexivity.
Defined.

(** ** More on the isolation test *)

Lemma isNeighbor_sym (t o : Tile) : isNeighbor t o = isNeighbor o t.
Proof.
  unfold isNeighbor.
  destruct (decide (tile_suit t = tile_suit o)) as [Heq|Hne].
  - rewrite (bool_decide_eq_false_2 (tile_suit t ≠ tile_suit o)),
      (bool_decide_eq_false_2 (tile_suit o ≠ tile_suit t))
      by (intros ?; congruence).
    destruct (tile_value t), (tile_value o);
      apply bool_decide_ext; first [lia | done].
  - by rewrite (bool_decide_eq_true_2 (tile_suit t ≠ tile_suit o)),
      (bool_decide_eq_true_2 (tile_suit o ≠ tile_suit t)) by congruence.
Qed.

Lemma isNeighbor_same_key (t o : Tile) :
  groupKey t = groupKey o → isNeighbor t o = true.
Proof.
  unfold groupKey, isNeighbor. intros [= Hs Hv].
  rewrite (bool_decide_eq_false_2 (tile_suit t ≠ tile_suit o))
    by (intros ?; congruence).
  rewrite Hv.
  destruct (tile_value o); apply bool_decide_eq_true_2; first [lia | done].
Qed.

(** X4. Two tiles of the same suit and value at different positions of a
    hand are neighbours of each other, so neither is isolated; being a
    neighbour is mutual for any two tiles. *)
Theorem duplicates_are_neighbours (h : list Tile) (i j : nat) (t o : Tile) :
  i ≠ j → h !! i = Some t → h !! j = Some o →
  groupKey t = groupKey o →
  hasNeighbor h i t = true ∧ hasNeighbor h j o = true
  ∧ ∀ u v, isNeighbor u v = isNeighbor v u.
Proof.
  intros Hij Hi Hj Hkey. split; [|split; [|apply isNeighbor_sym]];
    apply hasNeighbor_true.
  - exists j, o. repeat split; [done|done|]. by apply isNeighbor_same_key.
  - exists i, t. repeat split; [done|done|]. by apply isNeighbor_same_key.
Qed.

Lemma duplicates_are_neighbours_witness :
  hasNeighbor [windTile west 116; numTile dot 9 104; windTile west 117]
    0 (windTile west 116) = true
  ∧ hasNeighbor [windTile west 116; numTile dot 9 104; windTile west 117]
      2 (windTile west 117) = true
  ∧ ∀ u v, isNeighbor u v = isNeighbor v u.
Proof.
  apply (duplicates_are_neighbours
           [windTile west 116; numTile dot 9 104; windTile west 117] 0 2).
  - lia.
  - reflexivity.
  - reflexivity.
  - reflexivity.
Defined.

Lemma entries_snd {A} (l : list A) : (entries l).*2 = l.
Proof.
  unfold entries. rewrite fmap_imap.
  change (λ n, snd ∘ (λ x : A, (n, x))) with (const (@id A) : nat → A → A).
  by rewrite imap_const, list_fmap_id.
Qed.

(** X5. [findIsolatedTiles] returns tiles of the hand in hand order,
    nothing for the empty hand, and the tile itself for a hand of one. *)
Theorem findIsolatedTiles_sublist :
  (∀ h, findIsolatedTiles h `sublist_of` h)
  ∧ findIsolatedTiles [] = []
  ∧ (∀ t, findIsolatedTiles [t] = [t]).
Proof.
  split.
  - intros h. rewrite findIsolatedTiles_filter.
    pose proof (fmap_sublist snd _ _
                  (sublist_filter (isolatedEntry h) (entries h))) as Hsub.
    by rewrite entries_snd in Hsub.
  - split; [done|]. intros t. unfold findIsolatedTiles, hasNeighbor.
    cbn. by rewrite ?bool_decide_eq_true_2.
Qed.

(** ** More on the opponent policy *)

Lemma floorTimes_lt (r : Draw) (n : nat) : (0 < n)%nat → (floorTimes r n < n)%nat.
Proof.
  intros Hn. unfold floorTimes. pose proof (num_lt_den r) as Hr.
  apply Nat.ltb_lt in Hr.
  apply Nat.Div0.div_lt_upper_bound. nia.
Qed.

(** A random element of a non-empty array is an element of it. *)
Lemma randomTile_elem (rs : RandomSource) (h : list Tile) :
  h ≠ [] →
  ∃ t, randomTile rs h = (Some t, λ i, rs (S i)) ∧ t ∈ h.
Proof.
  intros Hne. unfold randomTile, mathRandom.
  assert (0 < length h)%nat as Hlen by (destruct h; [done|simpl; lia]).
  destruct (lookup_lt_is_Some_2 h _ (floorTimes_lt (rs 0%nat) _ Hlen))
    as [t Ht].
  exists t. rewrite Ht. split; [done|]. by eapply list_elem_of_lookup_2.
Qed.

Lemma findIsolatedTiles_subseteq (h : list Tile) t :
  t ∈ findIsolatedTiles h → t ∈ h.
Proof.
  intros (i & Hi & _)%elem_of_findIsolatedTiles.
  by eapply list_elem_of_lookup_2.
Qed.

(** The three tiers on a hand with an isolated tile, and with none. *)
Lemma mediumPolicy_isolated (rs : RandomSource) (h : list Tile) :
  findIsolatedTiles h ≠ [] →
  ∃ t, mediumPolicy rs h = (Some t, λ i, rs (S i)) ∧ t ∈ findIsolatedTiles h.
Proof.
  intros Hiso. unfold mediumPolicy, selectTileToDiscard.
  assert (h ≠ []) as Hne by (by intros ->).
  rewrite bool_decide_eq_false_2 by (by intros ?%nil_length_inv).
  rewrite (bool_decide_eq_false_2 (PString "medium" = PString "easy")) by done.
  rewrite (bool_decide_eq_true_2 (PString "medium" = PString "medium")) by done.
  assert (0 < length (findIsolatedTiles h))%nat as Hlen
    by (destruct (findIsolatedTiles h); [done|simpl; lia]).
  cbv zeta. rewrite bool_decide_eq_true_2 by done. unfold mathRandom.
  destruct (lookup_lt_is_Some_2 (findIsolatedTiles h) _
              (floorTimes_lt (rs 0%nat) _ Hlen)) as [t Ht].
  exists t. rewrite Ht. split; [done|]. by eapply list_elem_of_lookup_2.
Qed.

Lemma hardPolicy_isolated (rs : RandomSource) (h : list Tile) t rest :
  findIsolatedTiles h = t :: rest →
  selectTileToDiscard rs h (PString "hard") = (Some t, rs).
Proof.
  intros Hiso. unfold selectTileToDiscard.
  assert (h ≠ []) as Hne by (by intros ->).
  rewrite bool_decide_eq_false_2 by (by intros ?%nil_length_inv).
  rewrite (bool_decide_eq_false_2 (PString "hard" = PString "easy")) by done.
  rewrite (bool_decide_eq_false_2 (PString "hard" = PString "medium")) by done.
  rewrite (bool_decide_eq_true_2 (PString "hard" = PString "hard")) by done.
  unfold findStrategicDiscard. by rewrite Hiso.
Qed.

Lemma policies_without_isolated (rs : RandomSource) (h : list Tile) d :
  h ≠ [] → findIsolatedTiles h = [] → d ∈ tiers →
  selectTileToDiscard rs h d = randomTile rs h.
Proof.
  intros Hne Hiso Hd. unfold selectTileToDiscard.
  rewrite bool_decide_eq_false_2 by (by intros ?%nil_length_inv).
  destruct (randomTile_elem rs h Hne) as (t & Hrand & _).
  unfold tiers in Hd. rewrite !elem_of_cons, elem_of_nil in Hd.
  destruct Hd as [-> | [-> | [-> | []]]].
  - by rewrite bool_decide_eq_true_2.
  - rewrite (bool_decide_eq_false_2 (PString "medium" = PString "easy")) by done.
    rewrite (bool_decide_eq_true_2 (PString "medium" = PString "medium")) by done.
    rewrite Hiso. done.
  - rewrite (bool_decide_eq_false_2 (PString "hard" = PString "easy")) by done.
    rewrite (bool_decide_eq_false_2 (PString "hard" = PString "medium")) by done.
    rewrite (bool_decide_eq_true_2 (PString "hard" = PString "hard")) by done.
    unfold findStrategicDiscard. rewrite Hiso.
    rewrite (bool_decide_eq_false_2 (0 < length (@nil Tile))%nat)
      by (simpl; lia).
    by rewrite Hrand.
Qed.

Lemma unknown_difficulty_first (rs : RandomSource) (h : list Tile) d :
  d ∉ tiers → selectTileToDiscard rs h d = (h !! 0%nat, rs).
Proof.
  intros Hd. unfold tiers in Hd. rewrite !not_elem_of_cons in Hd.
  destruct Hd as (? & ? & ? & _). unfold selectTileToDiscard.
  case_bool_decide as Hlen; [by rewrite (nil_length_inv _ Hlen)|].
  by rewrite !bool_decide_eq_false_2 by done.
Qed.

Lemma selectTileToDiscard_elem (rs : RandomSource) (h : list Tile) (d : Param) :
  h ≠ [] → ∃ t rs', selectTileToDiscard rs h d = (Some t, rs') ∧ t ∈ h.
Proof.
  intros Hne. destruct (decide (d ∈ tiers)) as [Hd|Hd].
  - destruct (findIsolatedTiles h) as [|t0 rest] eqn:Hiso.
    + rewrite policies_without_isolated by done.
      destruct (randomTile_elem rs h Hne) as (t & -> & Ht). by (eexists t, _).
    + unfold tiers in Hd. rewrite !elem_of_cons, elem_of_nil in Hd.
      destruct Hd as [-> | [-> | [-> | []]]].
      * unfold selectTileToDiscard.
        rewrite bool_decide_eq_false_2 by (by intros ?%nil_length_inv).
        rewrite bool_decide_eq_true_2 by done.
        destruct (randomTile_elem rs h Hne) as (t & -> & Ht). by (eexists t, _).
      * destruct (mediumPolicy_isolated rs h) as (t & Hsel & Ht);
          [by rewrite Hiso|].
        unfold mediumPolicy in Hsel. rewrite Hsel. eexists t, _.
        split; [done|]. by apply findIsolatedTiles_subseteq.
      * rewrite (hardPolicy_isolated rs h t0 rest Hiso). eexists t0, _.
        split; [done|]. apply findIsolatedTiles_subseteq.
        rewrite Hiso. left.
  - rewrite unknown_difficulty_first by done.
    destruct h as [|t h]; [done|]. eexists t, _. split; [done|left].
Qed.

(** X6. Whatever the difficulty and the random source,
    [selectTileToDiscard] returns nothing for the empty hand, taking no
    draw, and a tile of the hand for every other hand. *)
Theorem selectTileToDiscard_in_hand (rs : RandomSource) (h : list Tile)
    (d : Param) :
  (h = [] → selectTileToDiscard rs h d = (None, rs))
  ∧ (h ≠ [] → ∃ t, (selectTileToDiscard rs h d).1 = Some t ∧ t ∈ h).
Proof.
  split.
  - by intros ->.
  - intros Hne.
    destruct (selectTileToDiscard_elem rs h d Hne) as (t & rs' & Hsel & Ht).
    exists t. by rewrite Hsel.
Qed.

Lemma selectTileToDiscard_in_hand_witness :
  ∃ t, (selectTileToDiscard zeros
          [numTile bamboo 1 0; numTile bamboo 2 4] (PString "easy")).1 = Some t
       ∧ t ∈ [numTile bamboo 1 0; numTile bamboo 2 4].
Proof.
  apply (selectTileToDiscard_in_hand zeros
           [numTile bamboo 1 0; numTile bamboo 2 4] (PString "easy")).
  discriminate.
Defined.

(** X7. When the hand has an isolated tile, the medium tier discards an
    isolated tile, a tile at a position without neighbour, whatever the
    random source, and takes one draw. *)
Theorem medium_discards_isolated (rs : RandomSource) (h : list Tile) :
  findIsolatedTiles h ≠ [] →
  ∃ t i, selectTileToDiscard rs h (PString "medium") = (Some t, λ k, rs (S k))
         ∧ h !! i = Some t ∧ hasNeighbor h i t = false.
Proof.
  intros Hiso.
  destruct (mediumPolicy_isolated rs h Hiso) as (t & Hsel & Ht).
  apply elem_of_findIsolatedTiles in Ht as (i & Hi & Hn).
  exists t, i. split; [exact Hsel|]. by split.
Qed.

Lemma medium_discards_isolated_witness :
  ∃ t i, selectTileToDiscard zeros
           [numTile bamboo 1 0; numTile bamboo 2 4; numTile dot 9 104]
           (PString "medium") = (Some t, λ k, zeros (S k))
         ∧ [numTile bamboo 1 0; numTile bamboo 2 4; numTile dot 9 104] !! i
           = Some t
         ∧ hasNeighbor
             [numTile bamboo 1 0; numTile bamboo 2 4; numTile dot 9 104] i t
           = false.
Proof.
  apply (medium_discards_isolated zeros
           [numTile bamboo 1 0; numTile bamboo 2 4; numTile dot 9 104]).
  by vm_compute.
Defined.



(** X9. One call of [selectTileToDiscard] calls [Math.random] at most
    once. *)
Theorem selectTileToDiscard_one_draw (rs : RandomSource) (h : list Tile)
    (d : Param) :
  (selectTileToDiscard rs h d).2 = rs
  ∨ (selectTileToDiscard rs h d).2 = (λ i, rs (S i)).
Proof.
  destruct h as [|t0 h0] eqn:Hh; [by left|]. rewrite <-Hh.
  assert (h ≠ []) as Hne by (by rewrite Hh).
  destruct (decide (d ∈ tiers)) as [Hd|Hd];
    [|left; by rewrite unknown_difficulty_first].
  destruct (findIsolatedTiles h) as [|t rest] eqn:Hiso.
  { right. by rewrite policies_without_isolated. }
  unfold tiers in Hd. rewrite !elem_of_cons, elem_of_nil in Hd.
  destruct Hd as [-> | [-> | [-> | []]]].
  - right. unfold selectTileToDiscard.
    rewrite bool_decide_eq_false_2 by (by intros ?%nil_length_inv).
    by rewrite bool_decide_eq_true_2.
  - right. destruct (mediumPolicy_isolated rs h) as (t' & Hsel & _);
      [by rewrite Hiso|].
    unfold mediumPolicy in Hsel. by rewrite Hsel.
  - left. by rewrite (hardPolicy_isolated rs h t rest Hiso).
Qed.

(** ** One draw, one discard *)

Lemma setHand_seat (p : Player) h : seat (setHand p h) = seat p.
Proof. done. Qed.

Lemma drawTile_None (i : nat) (g : Game) :
  drawTile i g = None → drawPile g ≠ [] ∧ (length (players g) ≤ i)%nat.
Proof.
  unfold drawTile. destruct (drawPile g) as [|drawn rest]; [done|].
  destruct (players g !! i) eqn:Hp; [done|]. intros _.
  split; [done|]. by apply lookup_ge_None.
Qed.

Lemma discardTile_None (i : nat) (tileId : string) (g : Game) :
  discardTile i tileId g = None → (length (players g) ≤ i)%nat.
Proof.
  unfold discardTile. destruct (players g !! i) as [p|] eqn:Hp.
  - by destruct (list_find _ _) as [[??]|].
  - intros _. by apply lookup_ge_None.
Qed.

(** X10. [drawTile] ends in a [TypeError] exactly when the pile is not
    empty and the player does not exist; [discardTile] exactly when the
    player does not exist. *)
Theorem callbacks_TypeError (playerIndex : nat) (tileId : string) (g : Game) :
  (drawTile playerIndex g = None ↔
     drawPile g ≠ [] ∧ (length (players g) ≤ playerIndex)%nat)
  ∧ (discardTile playerIndex tileId g = None ↔
     (length (players g) ≤ playerIndex)%nat).
Proof.
  rewrite <-!lookup_ge_None. unfold drawTile, discardTile. split.
  - destruct (drawPile g) as [|drawn rest].
    { split; [done|]. by intros [[] _]. }
    destruct (players g !! playerIndex); split; try done. by intros [_ ?].
  - destruct (players g !! playerIndex) as [p|]; [|done].
    by destruct (list_find _ _) as [[??]|].
Qed.

(** X11. A draw for an existing player from a non-empty pile takes the
    front tile of the pile into that player's hand: the hand then holds its
    former tiles and the drawn one, in sorted order; the pile is its
    former rest; the drawn tile is the last drawn tile; discard piles,
    other players, the current player and the selection are left alone. *)
Theorem drawTile_draws (playerIndex : nat) (g : Game) (p : Player)
    (drawn : Tile) (rest : list Tile) :
  players g !! playerIndex = Some p →
  drawPile g = drawn :: rest →
  ∃ g' effects p',
    drawTile playerIndex g = Some (g', effects)
    ∧ players g' = <[playerIndex := p']> (players g)
    ∧ hand p' ≡ₚ drawn :: hand p
    ∧ StronglySorted tileLe (hand p')
    ∧ discarded p' = discarded p
    ∧ seat p' = seat p
    ∧ drawPile g' = rest
    ∧ lastDrawnTile g' = Some drawn
    ∧ currentPlayerIndex g' = currentPlayerIndex g
    ∧ selectedTile g' = selectedTile g
    ∧ scheduled effects = [].
Proof.
  intros Hp Hpile. unfold drawTile. rewrite Hpile, Hp.
  eexists _, _, (setHand p (sortHand (hand p ++ [drawn]))).
  split; [reflexivity|]. cbn [players hand setHand].
  split; [done|]. split.
  { unfold sortHand. rewrite sortBy_Permutation.
    by rewrite Permutation_app_comm. }
  split; [apply sortHand_StronglySorted|].
  repeat (split; [done|]). by destruct (checkWin _).
Qed.

Lemma drawTile_draws_witness :
  ∃ g' effects p',
    drawTile 1 (smallTable [numTile bamboo 9 32; numTile dot 3 80])
    = Some (g', effects)
    ∧ players g'
      = <[1%nat := p']>
          (players (smallTable [numTile bamboo 9 32; numTile dot 3 80]))
    ∧ hand p' ≡ₚ numTile bamboo 9 32 :: [numTile bamboo 2 4; numTile dot 5 88]
    ∧ StronglySorted tileLe (hand p')
    ∧ drawPile g' = [numTile dot 3 80].
Proof.
  destruct (drawTile_draws 1
              (smallTable [numTile bamboo 9 32; numTile dot 3 80])
              (mkPlayer "ai1" "AI Bot 1" [numTile bamboo 2 4; numTile dot 5 88]
                 [windTile east 108] true)
              (numTile bamboo 9 32) [numTile dot 3 80] eq_refl eq_refl)
    as (g' & effects & p' & Hdraw & Hplayers & Hhand & Hsorted & _ & _
        & Hpile & _).
  by exists g', effects, p'.
Defined.

Lemma checkWin_true_length (h : list Tile) :
  checkWin h = true → length h = 14%nat.
Proof.
  unfold checkWin. case_bool_decide as Hlen; [done|]. intros _.
  by destruct (decide (length h = 14%nat)).
Qed.

(** X12. After a draw the game is finished with the drawing player as
    winner when the hand after the draw passes [checkWin], and phase and
    winner are untouched when it does not; the winner alert is shown in the
    first case only. A player who held other than 13 tiles before the draw
    does not win by it. *)
Theorem drawTile_win (playerIndex : nat) (g g' : Game) (effects : list Effect)
    (p : Player) :
  players g !! playerIndex = Some p →
  drawPile g ≠ [] →
  drawTile playerIndex g = Some (g', effects) →
  ∃ p', players g' !! playerIndex = Some p'
    ∧ (checkWin (hand p') = true →
         gameState g' = finished ∧ winner g' = Some (player_name p)
         ∧ Alert "Winner!" (player_name p +:+ " wins!") ∈ effects)
    ∧ (checkWin (hand p') = false →
         gameState g' = gameState g ∧ winner g' = winner g
         ∧ effects = [ConsoleLog (player_name p +:+ " drew a tile") []])
    ∧ (length (hand p) ≠ 13%nat → checkWin (hand p') = false).
Proof.
  intros Hp Hpile. unfold drawTile.
  destruct (drawPile g) as [|drawn rest]; [done|]. rewrite Hp.
  intros [= <- <-]. exists (setHand p (sortHand (hand p ++ [drawn]))).
  cbn [players hand setHand].
  split; [apply list_lookup_insert_eq; by eapply lookup_lt_Some|].
  cbn [gameState winner player_name setHand].
  split; [|split].
  - intros ->. repeat split. right. left.
  - by intros ->.
  - intros Hlen. apply not_true_iff_false. intros Hwin%checkWin_true_length.
    unfold sortHand in Hwin. rewrite length_sortBy, length_app in Hwin.
    simpl in Hwin. lia.
Qed.

Lemma drawTile_win_witness :
  ∃ p', players
          (mkGame playing
             [ mkPlayer "player" "You"
                 [numTile bamboo 1 0; numTile dot 9 104] [] false;
               mkPlayer "ai1" "AI Bot 1"
                 [numTile bamboo 2 4; numTile bamboo 9 32; numTile dot 5 88]
                 [windTile east 108] true;
               mkPlayer "ai2" "AI Bot 2"
                 [numTile dot 1 72; numTile dot 2 76] [] true;
               mkPlayer "ai3" "AI Bot 3"
                 [windTile west 116; windTile west 117] [] true ]
             1 [numTile dot 3 80] None (Some (numTile bamboo 9 32)) None)
          !! 1%nat = Some p'
        ∧ checkWin (hand p') = false.
Proof.
  destruct (drawTile_win 1
              (smallTable [numTile bamboo 9 32; numTile dot 3 80]) _ _
              (mkPlayer "ai1" "AI Bot 1" [numTile bamboo 2 4; numTile dot 5 88]
                 [windTile east 108] true)
              eq_refl ltac:(discriminate) drawTile_example)
    as (p' & Hp' & _ & _ & Hlose).
  exists p'. split; [exact Hp'|]. apply Hlose. simpl. lia.
Defined.

Lemma concat_insert_Permutation {A} (f : Player → list A) (l : list Player)
    i p :
  l !! i = Some p →
  ∃ others, concat (f <$> l) ≡ₚ f p ++ others
            ∧ ∀ p', concat (f <$> <[i:=p']> l) ≡ₚ f p' ++ others.
Proof.
  revert i. induction l as [|q l IH]; intros i Hi; [done|].
  destruct i as [|i]; simplify_eq/=.
  - by exists (concat (f <$> l)).
  - destruct (IH i Hi) as (others & Hl & Hins).
    exists (f q ++ others). split.
    + rewrite Hl. by rewrite !app_assoc, (Permutation_app_comm (f q)).
    + intros p'. rewrite Hins.
      by rewrite !app_assoc, (Permutation_app_comm (f q)).
Qed.

Lemma drawTile_allTiles (playerIndex : nat) (g g' : Game) effects :
  drawTile playerIndex g = Some (g', effects) → allTiles g' ≡ₚ allTiles g.
Proof.
  unfold drawTile.
  destruct (drawPile g) as [|drawn rest] eqn:Hpile.
  { intros [= <- _]. unfold allTiles. simpl. by rewrite Hpile. }
  destruct (players g !! playerIndex) as [p|] eqn:Hp; [|done].
  intros [= <- _]. unfold allTiles. cbn [players drawPile]. rewrite Hpile.
  destruct (concat_insert_Permutation hand _ _ _ Hp) as (hs & Hh & Hh').
  destruct (concat_insert_Permutation discarded _ _ _ Hp) as (ds & Hd & Hd').
  rewrite Hh', Hd', Hh, Hd. cbn [hand discarded setHand].
  unfold sortHand. rewrite sortBy_Permutation.
  rewrite <-!app_assoc. apply Permutation_app_head. simpl.
  rewrite !app_assoc. apply Permutation_middle.
Qed.

(** The tile and the position found by [findIndex]. *)
Lemma list_find_split (tileId : string) (h : list Tile) i t :
  list_find (λ t, tile_id t = tileId) h = Some (i, t) →
  ∃ pre post, h = pre ++ t :: post ∧ delete i h = pre ++ post
              ∧ tile_id t = tileId
              ∧ Forall (λ u, tile_id u ≠ tileId) pre.
Proof.
  intros (Hi & Hid & Hfirst)%list_find_Some.
  exists (take i h), (drop (S i) h).
  split; [by rewrite take_drop_middle|].
  split; [by rewrite delete_take_drop|]. split; [done|].
  apply Forall_forall. intros u Hu.
  apply list_elem_of_lookup in Hu as [j Hj].
  pose proof (lookup_lt_Some _ _ _ Hj) as Hlt. rewrite length_take in Hlt.
  rewrite lookup_take_lt in Hj by lia. apply (Hfirst j); [done|lia].
Qed.

Lemma discardTile_allTiles (playerIndex : nat) tileId (g g' : Game) effects :
  discardTile playerIndex tileId g = Some (g', effects) →
  allTiles g' ≡ₚ allTiles g.
Proof.
  unfold discardTile.
  destruct (players g !! playerIndex) as [p|] eqn:Hp; [|done].
  destruct (list_find _ _) as [[i t]|] eqn:Hfind; [|by intros [= <- _]].
  intros [= <- _]. unfold allTiles. cbn [players drawPile].
  destruct (list_find_split _ _ _ _ Hfind) as (pre & post & Hh & Hdel & _).
  destruct (concat_insert_Permutation hand _ _ _ Hp) as (hs & Hhs & Hhs').
  destruct (concat_insert_Permutation discarded _ _ _ Hp) as (ds & Hd & Hd').
  rewrite Hhs', Hd', Hhs, Hd. cbn [hand discarded]. rewrite Hdel, Hh.
  rewrite <-!app_assoc. apply Permutation_app_head. simpl.
  transitivity ((post ++ hs ++ discarded p) ++ t :: (ds ++ drawPile g)).
  { by rewrite <-!app_assoc. }
  rewrite <-Permutation_middle. by rewrite <-!app_assoc.
Qed.

(** X13. Neither a draw nor a discard adds or loses a tile: hands, discard
    piles and draw pile together hold the same tiles after the call as
    before. *)
Theorem draw_discard_conserve_tiles (playerIndex : nat) (tileId : string)
    (g : Game) :
  (∀ g' effects, drawTile playerIndex g = Some (g', effects) →
     allTiles g' ≡ₚ allTiles g)
  ∧ (∀ g' effects, discardTile playerIndex tileId g = Some (g', effects) →
     allTiles g' ≡ₚ allTiles g).
Proof.
  split; intros g' effects;
    [apply drawTile_allTiles | apply discardTile_allTiles].
Qed.

Lemma draw_discard_conserve_tiles_witness :
  allTiles
    (mkGame playing
       [ mkPlayer "player" "You"
           [numTile bamboo 1 0; numTile dot 9 104] [] false;
         mkPlayer "ai1" "AI Bot 1"
           [numTile bamboo 2 4; numTile bamboo 9 32; numTile dot 5 88]
           [windTile east 108] true;
         mkPlayer "ai2" "AI Bot 2"
           [numTile dot 1 72; numTile dot 2 76] [] true;
         mkPlayer "ai3" "AI Bot 3"
           [windTile west 116; windTile west 117] [] true ]
       1 [numTile dot 3 80] None (Some (numTile bamboo 9 32)) None)
  ≡ₚ allTiles (smallTable [numTile bamboo 9 32; numTile dot 3 80]).
Proof.
  apply (proj1 (draw_discard_conserve_tiles 1 ""
                  (smallTable [numTile bamboo 9 32; numTile dot 3 80]))
           _ _ drawTile_example).
Defined.

(** What [discardTile] returns when [findIndex] finds the tile. *)
Lemma discardTile_found (playerIndex : nat) (g : Game) (p : Player)
    (pre post : list Tile) (t : Tile) :
  players g !! playerIndex = Some p →
  hand p = pre ++ t :: post →
  Forall (λ u, tile_id u ≠ tile_id t) pre →
  discardTile playerIndex (tile_id t) g
  = Some (mkGame (gameState g)
            (<[playerIndex :=
                 mkPlayer (player_id p) (player_name p) (pre ++ post)
                   (discarded p ++ [t]) (isAI p)]> (players g))
            ((playerIndex + 1) `mod` length (players g))%nat (drawPile g)
            None None (winner g),
          [ConsoleLog (player_name p +:+ " discarded a tile") [];
           SetTimeoutDrawTile
             ((playerIndex + 1) `mod` length (players g))%nat 500]).
Proof.
  intros Hp Hh Hpre. unfold discardTile. rewrite Hp.
  assert (list_find (λ u, tile_id u = tile_id t) (hand p)
          = Some (length pre, t)) as Hfind.
  { apply list_find_Some. rewrite Hh. split.
    { by rewrite lookup_app_r, Nat.sub_diag by lia. }
    split; [done|]. intros j u Hj Hlt.
    rewrite lookup_app_l in Hj by done.
    rewrite Forall_forall in Hpre. apply Hpre.
    by eapply list_elem_of_lookup_2. }
  rewrite Hfind.
  assert (delete (length pre) (hand p) = pre ++ post) as ->.
  { rewrite Hh, delete_take_drop, take_app_length.
    rewrite cons_middle, app_assoc, drop_app_length'; [done|].
    rewrite length_app. simpl. lia. }
  by rewrite length_insert.
Qed.

(** X14. A discard of an identifier carried by a tile of the hand removes
    the first tile carrying it and nothing else, keeping the order of the
    other tiles (a sorted hand stays sorted); the tile goes to the end of
    the player's discard pile; selection and last drawn tile are cleared;
    the turn passes to the next player, for whom one draw is scheduled;
    phase, winner, draw pile and the other players are left alone. *)
Theorem discardTile_removes_first (playerIndex : nat) (g : Game) (p : Player)
    (pre post : list Tile) (t : Tile) :
  players g !! playerIndex = Some p →
  hand p = pre ++ t :: post →
  Forall (λ u, tile_id u ≠ tile_id t) pre →
  ∃ g' effects p',
    discardTile playerIndex (tile_id t) g = Some (g', effects)
    ∧ players g' = <[playerIndex := p']> (players g)
    ∧ hand p' = pre ++ post
    ∧ (StronglySorted tileLe (hand p) → StronglySorted tileLe (hand p'))
    ∧ discarded p' = discarded p ++ [t]
    ∧ seat p' = seat p
    ∧ currentPlayerIndex g'
      = ((playerIndex + 1) `mod` length (players g))%nat
    ∧ scheduled effects = [currentPlayerIndex g']
    ∧ selectedTile g' = None ∧ lastDrawnTile g' = None
    ∧ gameState g' = gameState g ∧ winner g' = winner g
    ∧ drawPile g' = drawPile g.
Proof.
  intros Hp Hh Hpre.
  eexists _, _, (mkPlayer (player_id p) (player_name p) (pre ++ post)
                   (discarded p ++ [t]) (isAI p)).
  split; [by apply (discardTile_found _ _ p pre post)|].
  cbn [players hand discarded currentPlayerIndex selectedTile lastDrawnTile
       gameState winner drawPile].
  split; [done|]. split; [done|]. split; [|done].
  rewrite Hh. rewrite !StronglySorted_app, StronglySorted_cons.
  intros (Hall & Hs1 & _ & Hs2). split; [|done].
  intros x y Hx Hy. apply Hall; [done|by right].
Qed.

Lemma discardTile_removes_first_witness :
  ∃ g' effects p',
    discardTile 3 (tile_id (windTile west 117)) (smallTable [])
    = Some (g', effects)
    ∧ hand p' = [windTile west 116] ++ []
    ∧ discarded p' = [] ++ [windTile west 117]
    ∧ currentPlayerIndex g' = 0%nat.
Proof.
  destruct (discardTile_removes_first 3 (smallTable [])
              (mkPlayer "ai3" "AI Bot 3"
                 [windTile west 116; windTile west 117] [] true)
              [windTile west 116] [] (windTile west 117) eq_refl eq_refl)
    as (g' & effects & p' & Hd & _ & Hh & _ & Hdisc & _ & Hci & _).
  { repeat constructor. by vm_compute. }
  by exists g', effects, p'.
Defined.

(** ** The opponent's turn and the player's presses *)

Lemma elem_split_first_id (t : Tile) (h : list Tile) :
  t ∈ h → NoDup (tile_id <$> h) →
  ∃ pre post, h = pre ++ t :: post
              ∧ Forall (λ u, tile_id u ≠ tile_id t) pre.
Proof.
  intros (pre & post & ->)%list_elem_of_split Hids.
  exists pre, post. split; [done|].
  rewrite fmap_app, fmap_cons in Hids.
  apply NoDup_app in Hids as (_ & Hdisj & _).
  apply Forall_forall. intros u Hu Heq.
  apply (Hdisj (tile_id u)); [by apply list_elem_of_fmap_2|].
  rewrite Heq. left.
Qed.

(** X15. [performAITurn] changes nothing, sets no timer and takes no
    random draw when there is no current player, when the current player
    is the human one, and when the current opponent holds no tile: the turn
    then stays with that opponent. *)
Theorem performAITurn_idle (rs : RandomSource) (d : Param) (g : Game) :
  players g !! currentPlayerIndex g = None
  ∨ (∃ p, players g !! currentPlayerIndex g = Some p
          ∧ (isAI p = false ∨ hand p = [])) →
  performAITurn rs d g = (Some (g, []), rs).
Proof.
  unfold performAITurn. intros [-> | (p & -> & [Hhuman | Hempty])]; [done|..].
  - by rewrite Hhuman.
  - destruct (isAI p); [|done]. simpl. by rewrite Hempty.
Qed.

Lemma performAITurn_idle_witness :
  performAITurn zeros (PString "hard")
    (mkGame playing (players (smallTable [])) 0 [] None None None)
  = (Some (mkGame playing (players (smallTable [])) 0 [] None None None, []),
     zeros).
Proof.
  apply (performAITurn_idle zeros (PString "hard")
           (mkGame playing (players (smallTable [])) 0 [] None None None)).
  right. eexists. split; [reflexivity|]. by left.
Defined.

(** X16. When the current player is an opponent holding tiles with
    distinct identifiers, [performAITurn] discards exactly the tile which
    [selectTileToDiscard] picks: the tile leaves the hand for the end of
    the opponent's discard pile, the turn passes to the next player and one
    draw is scheduled for that player. *)
Theorem performAITurn_discards (rs : RandomSource) (d : Param) (g : Game)
    (p : Player) :
  players g !! currentPlayerIndex g = Some p →
  isAI p = true →
  hand p ≠ [] →
  NoDup (tile_id <$> hand p) →
  ∃ t rs' g' effects p',
    selectTileToDiscard rs (hand p) d = (Some t, rs')
    ∧ performAITurn rs d g = (Some (g', effects), rs')
    ∧ players g' = <[currentPlayerIndex g := p']> (players g)
    ∧ hand p ≡ₚ t :: hand p'
    ∧ discarded p' = discarded p ++ [t]
    ∧ currentPlayerIndex g'
      = ((currentPlayerIndex g + 1) `mod` length (players g))%nat
    ∧ scheduled effects = [currentPlayerIndex g'].
Proof.
  intros Hp Hai Hne Hids.
  destruct (selectTileToDiscard_elem rs (hand p) d Hne)
    as (t & rs' & Hsel & Ht).
  destruct (elem_split_first_id t (hand p) Ht Hids)
    as (pre & post & Hh & Hpre).
  exists t, rs'. eexists _, _,
    (mkPlayer (player_id p) (player_name p) (pre ++ post)
       (discarded p ++ [t]) (isAI p)).
  split; [done|]. split.
  { unfold performAITurn. rewrite Hp, Hai, Hsel. simpl.
    by rewrite (discardTile_found _ g p pre post t Hp Hh Hpre). }
  cbn [players hand discarded currentPlayerIndex].
  split; [done|]. split; [|done].
  rewrite Hh. by rewrite <-Permutation_middle.
Qed.

Lemma performAITurn_discards_witness :
  ∃ t rs' g' effects p',
    selectTileToDiscard zeros [numTile bamboo 2 4; numTile dot 5 88]
      (PString "hard") = (Some t, rs')
    ∧ performAITurn zeros (PString "hard") (smallTable [])
      = (Some (g', effects), rs')
    ∧ players g' = <[1%nat := p']> (players (smallTable []))
    ∧ [numTile bamboo 2 4; numTile dot 5 88] ≡ₚ t :: hand p'
    ∧ discarded p' = [windTile east 108] ++ [t]
    ∧ currentPlayerIndex g' = 2%nat
    ∧ scheduled effects = [currentPlayerIndex g'].
Proof.
  apply (performAITurn_discards zeros (PString "hard") (smallTable [])
           (mkPlayer "ai1" "AI Bot 1" [numTile bamboo 2 4; numTile dot 5 88]
              [windTile east 108] true)).
  - reflexivity.
  - reflexivity.
  - discriminate.
  - apply (bool_decide_unpack _). by vm_compute.
Defined.

(** X17. In a playing game on the human player's turn, a press on a tile
    of the hand which is not the selected one selects it, and a press on
    the discard button then discards that very tile: it leaves the hand for
    the end of the discard pile, the selection is cleared and the turn
    passes on. The identifiers of the hand are distinct and the tile's is
    not the empty string. *)
Theorem press_then_discard (g : Game) (p : Player) (t : Tile) :
  gameState g = playing →
  players g !! currentPlayerIndex g = Some p →
  isAI p = false →
  t ∈ hand p →
  NoDup (tile_id <$> hand p) →
  tile_id t ≠ "" →
  selectedTile g ≠ Some (tile_id t) →
  ∃ g1 g2 effects p2,
    handleTilePress (tile_id t) g = (g1, [ImpactAsync Light])
    ∧ selectedTile g1 = Some (tile_id t)
    ∧ handleDiscard g1 = Some (g2, effects)
    ∧ players g2 = <[currentPlayerIndex g := p2]> (players g)
    ∧ hand p ≡ₚ t :: hand p2
    ∧ discarded p2 = discarded p ++ [t]
    ∧ selectedTile g2 = None
    ∧ currentPlayerIndex g2
      = ((currentPlayerIndex g + 1) `mod` length (players g))%nat.
Proof.
  intros Hplaying Hp Hhuman Ht Hids Hid Hsel.
  destruct (elem_split_first_id t (hand p) Ht Hids)
    as (pre & post & Hh & Hpre).
  eexists _, _, _,
    (mkPlayer (player_id p) (player_name p) (pre ++ post)
       (discarded p ++ [t]) (isAI p)).
  split.
  { unfold handleTilePress, currentIsAI.
    rewrite bool_decide_eq_false_2 by (by rewrite Hplaying; intros []).
    rewrite Hp, Hhuman. by rewrite bool_decide_eq_false_2 by done. }
  split; [done|]. split.
  { unfold handleDiscard. cbn [selectedTile setSelectedTile currentPlayerIndex].
    rewrite bool_decide_eq_false_2 by done.
    rewrite (discardTile_found _ _ p pre post t); [reflexivity|done..]. }
  cbn [players hand discarded currentPlayerIndex selectedTile setSelectedTile].
  split; [done|]. split; [|done].
  rewrite Hh. by rewrite <-Permutation_middle.
Qed.

Lemma press_then_discard_witness :
  ∃ g1 g2 effects p2,
    handleTilePress (tile_id (numTile dot 9 104))
      (mkGame playing (players (smallTable [])) 0 [] None None None)
    = (g1, [ImpactAsync Light])
    ∧ selectedTile g1 = Some (tile_id (numTile dot 9 104))
    ∧ handleDiscard g1 = Some (g2, effects)
    ∧ players g2 = <[0%nat := p2]> (players (smallTable []))
    ∧ [numTile bamboo 1 0; numTile dot 9 104] ≡ₚ numTile dot 9 104 :: hand p2
    ∧ discarded p2 = [] ++ [numTile dot 9 104]
    ∧ selectedTile g2 = None
    ∧ currentPlayerIndex g2 = 1%nat.
Proof.
  apply (press_then_discard
           (mkGame playing (players (smallTable [])) 0 [] None None None)
           (mkPlayer "player" "You" [numTile bamboo 1 0; numTile dot 9 104]
              [] false)
           (numTile dot 9 104)).
  - reflexivity.
  - reflexivity.
  - reflexivity.
  - right. left.
  - apply (bool_decide_unpack _). by vm_compute.
  - by vm_compute.
  - discriminate.
Defined.



(** ** The game over time *)

(** What a successful [drawTile] did. *)
Lemma drawTile_cases (i : nat) (g g' : Game) effects :
  drawTile i g = Some (g', effects) →
  (drawPile g = []
   ∧ g' = mkGame finished (players g) (currentPlayerIndex g) (drawPile g)
            (selectedTile g) (lastDrawnTile g) (winner g)
   ∧ scheduled effects = [])
  ∨ (∃ p drawn rest,
       players g !! i = Some p ∧ drawPile g = drawn :: rest
       ∧ players g' = <[i := setHand p (sortHand (hand p ++ [drawn]))]>
                        (players g)
       ∧ currentPlayerIndex g' = currentPlayerIndex g
       ∧ drawPile g' = rest
       ∧ scheduled effects = []
       ∧ (gameState g' = gameState g ∨ gameState g' = finished)
       ∧ (winner g' = winner g
          ∨ winner g' = Some (player_name p)
            ∧ length (hand p) = 13%nat)).
Proof.
  unfold drawTile. destruct (drawPile g) as [|drawn rest] eqn:Hpile.
  { intros [= <- <-]. by left. }
  destruct (players g !! i) as [p|] eqn:Hp; [|done].
  intros [= <- <-]. right. exists p, drawn, rest.
  cbn [players currentPlayerIndex drawPile gameState winner hand setHand
       player_name].
  repeat (split; [done|]).
  destruct (checkWin (sortHand (hand p ++ [drawn]))) eqn:Hwin.
  - split; [done|]. split; [by right|]. right. split; [done|].
    apply checkWin_true_length in Hwin.
    unfold sortHand in Hwin. rewrite length_sortBy, length_app in Hwin.
    simpl in Hwin. lia.
  - split; [done|]. split; by left.
Qed.

(** What a successful [discardTile] did. *)
Lemma discardTile_cases (i : nat) (tileId : string) (g g' : Game) effects :
  discardTile i tileId g = Some (g', effects) →
  (g' = g ∧ effects = [])
  ∨ (∃ p pre t post,
       players g !! i = Some p ∧ hand p = pre ++ t :: post
       ∧ g' = mkGame (gameState g)
                (<[i := mkPlayer (player_id p) (player_name p) (pre ++ post)
                          (discarded p ++ [t]) (isAI p)]> (players g))
                ((i + 1) `mod` length (players g))%nat (drawPile g)
                None None (winner g)
       ∧ scheduled effects = [((i + 1) `mod` length (players g))%nat]).
Proof.
  unfold discardTile. destruct (players g !! i) as [p|] eqn:Hp; [|done].
  destruct (list_find _ _) as [[k t]|] eqn:Hfind.
  - destruct (list_find_split _ _ _ _ Hfind) as (pre & post & Hh & Hdel & _).
    intros [= <- <-]. right. exists p, pre, t, post.
    by rewrite Hdel, length_insert.
  - intros [= <- <-]. by left.
Qed.

Lemma performAITurn_cases (rs : RandomSource) (d : Param) (g : Game) :
  (performAITurn rs d g).1 = Some (g, [])
  ∨ ∃ tileId,
      (performAITurn rs d g).1 = discardTile (currentPlayerIndex g) tileId g.
Proof.
  unfold performAITurn.
  destruct (players g !! currentPlayerIndex g) as [p|]; [|by left].
  destruct (isAI p); [|by left]. simpl.
  destruct (selectTileToDiscard rs (hand p) d) as [[t|] rs']; [|by left].
  right. by exists (tile_id t).
Qed.

Lemma engineEffects_Engine (effects : list Effect) :
  engineEffects (ImpactAsync Medium :: (Engine <$> effects)) = effects.
Proof.
  unfold engineEffects. csimpl.
  induction effects as [|e l IH]; [done|]. csimpl. by f_equal.
Qed.

Lemma handleDiscard_cases (g g' : Game) ui :
  handleDiscard g = Some (g', ui) →
  (g' = g ∧ scheduled (engineEffects ui) = [])
  ∨ ∃ tileId effects,
      discardTile (currentPlayerIndex g) tileId g = Some (g', effects)
      ∧ engineEffects ui = effects.
Proof.
  unfold handleDiscard. destruct (selectedTile g) as [tileId|].
  - case_bool_decide.
    + intros [= <- <-]. by left.
    + destruct (discardTile _ _ _) as [[g1 effects]|] eqn:Hd; [|done].
      intros [= <- <-]. right. exists tileId, effects.
      by rewrite engineEffects_Engine.
  - intros [= <- <-]. by left.
Qed.

Lemma handleTilePress_cases (tileId : string) (g : Game) :
  ∃ sel, (handleTilePress tileId g).1 = setSelectedTile g sel.
Proof.
  unfold handleTilePress.
  repeat case_match; eexists; simpl; try reflexivity.
  all: by instantiate (1 := selectedTile g); destruct g.
Qed.

(** *** The structure of the table *)

Lemma tableOk_length (g : Game) : tableOk g → length (players g) = 4%nat.
Proof. intros [Hs _ _ _]. by rewrite <-(length_fmap seat), Hs. Qed.

Lemma seats_insert (l : list Player) i p p' :
  l !! i = Some p → seat p' = seat p → seat <$> <[i:=p']> l = seat <$> l.
Proof.
  intros Hi Hseat. rewrite list_fmap_insert, Hseat.
  apply list_insert_id. by rewrite list_lookup_fmap, Hi.
Qed.

Lemma drawTile_tableOk (i : nat) (g g' : Game) effects :
  tableOk g → drawTile i g = Some (g', effects) → tableOk g'.
Proof.
  intros Hok Hdraw. pose proof (drawTile_allTiles _ _ _ _ Hdraw) as Htiles.
  destruct Hok as [Hs Hc Ht Hsorted].
  apply drawTile_cases in Hdraw
    as [(_ & -> & _) | (p & drawn & rest & Hp & _ & Hpl & Hci & _)].
  { by split. }
  split.
  - rewrite Hpl. by rewrite (seats_insert _ _ p).
  - by rewrite Hci.
  - by rewrite Htiles.
  - rewrite Hpl. apply Forall_insert; [done|]. apply sortHand_StronglySorted.
Qed.

Lemma discardTile_tableOk (i : nat) tileId (g g' : Game) effects :
  tableOk g → discardTile i tileId g = Some (g', effects) → tableOk g'.
Proof.
  intros Hok Hdisc. pose proof (discardTile_allTiles _ _ _ _ _ Hdisc) as Htiles.
  pose proof (tableOk_length g Hok) as Hlen.
  destruct Hok as [Hs Hc Ht Hsorted].
  apply discardTile_cases in Hdisc
    as [[-> _] | (p & pre & t & post & Hp & Hh & -> & _)].
  { by split. }
  split; cbn [players currentPlayerIndex].
  - by rewrite (seats_insert _ _ p).
  - rewrite Hlen. apply Nat.mod_upper_bound. lia.
  - by rewrite Htiles.
  - apply Forall_insert; [done|]. cbn [hand].
    rewrite Forall_lookup in Hsorted. specialize (Hsorted _ _ Hp).
    simpl in Hsorted. rewrite Hh in Hsorted.
    rewrite !StronglySorted_app, StronglySorted_cons in Hsorted.
    destruct Hsorted as (Hall & Hs1 & _ & Hs2).
    apply StronglySorted_app. split; [|done].
    intros x y Hx Hy. apply Hall; [done|by right].
Qed.

Lemma initializeGame_tableOk (shuffle : list Tile → list Tile) d (g : Game) :
  (∀ l, shuffle l ≡ₚ l) → tableOk (initializeGame shuffle d g).1.
Proof.
  intros Hperm. unfold initializeGame. cbn [fst]. split.
  - done.
  - cbn [currentPlayerIndex]. lia.
  - unfold allTiles. cbn [players drawPile]. simpl.
    rewrite !app_nil_r, !sortHand_Permutation, <-!app_assoc.
    rewrite <-deck_slices. by apply createTileDeck_Permutation.
  - cbn [players]. repeat apply Forall_cons_2; try apply Forall_nil_2;
      apply sortHand_StronglySorted.
Qed.

Lemma setSelectedTile_tableOk (g : Game) sel :
  tableOk g → tableOk (setSelectedTile g sel).
Proof. intros [????]. by split. Qed.

Lemma scheduled_discard_lt (i : nat) tileId (g g' : Game) effects :
  tableOk g → discardTile i tileId g = Some (g', effects) →
  Forall (λ j, (j < 4)%nat) (scheduled effects).
Proof.
  intros Hok Hdisc. pose proof (tableOk_length g Hok) as Hlen.
  apply discardTile_cases in Hdisc
    as [[_ ->] | (p & pre & t & post & _ & _ & _ & ->)]; [done|].
  constructor; [|constructor]. rewrite Hlen. apply Nat.mod_upper_bound. lia.
Qed.

(** One event keeps the invariant and does not throw. *)
Lemma step_screenOk (d : Param) (ev : Event) (s : Screen) :
  screenOk s →
  (∀ shuffle, ev = EvInitializeGame shuffle → ∀ l, shuffle l ≡ₚ l) →
  ∃ s', step d ev s = Some s' ∧ screenOk s'.
Proof.
  intros [Hok Htimers] Hfair.
  pose proof (tableOk_length _ Hok) as Hlen.
  destruct ev as [shuffle| |rs|tileId|]; cbn [step].
  - eexists. split; [done|]. split; [|done].
    apply initializeGame_tableOk. by apply Hfair.
  - destruct (timers s) as [|i rest] eqn:Ht.
    { exists s. split; [done|]. split; [done|]. by rewrite Ht. }
    apply Forall_cons in Htimers as [Hi Hrest].
    destruct (drawTile i (game s)) as [[g' effects]|] eqn:Hdraw.
    + eexists. split; [done|]. split; cbn [game timers].
      * by eapply drawTile_tableOk.
      * apply drawTile_cases in Hdraw
          as [(_ & _ & ->) | (? & ? & ? & _ & _ & _ & _ & _ & -> & _)];
          by rewrite app_nil_r.
    + apply drawTile_None in Hdraw as [_ Hge]. lia.
  - destruct (performAITurn_cases rs d (game s)) as [-> | [tileId ->]].
    { eexists. split; [done|]. split; [done|]. cbn [timers scheduled omap].
      by rewrite app_nil_r. }
    destruct (discardTile _ tileId (game s)) as [[g' effects]|] eqn:Hdisc.
    + eexists. split; [done|]. split; cbn [game timers].
      * by eapply discardTile_tableOk.
      * apply Forall_app. split; [done|]. by eapply scheduled_discard_lt.
    + apply discardTile_None in Hdisc.
      destruct Hok as [_ Hc _ _]. lia.
  - eexists. split; [done|]. split; [|done]. cbn [game].
    destruct (handleTilePress_cases tileId (game s)) as [sel ->].
    by apply setSelectedTile_tableOk.
  - destruct (handleDiscard (game s)) as [[g' ui]|] eqn:Hh.
    + eexists. split; [done|].
      apply handleDiscard_cases in Hh
        as [[-> ->] | (tileId & effects & Hdisc & ->)]; split; cbn [game timers].
      * done.
      * by rewrite app_nil_r.
      * by eapply discardTile_tableOk.
      * apply Forall_app. split; [done|]. by eapply scheduled_discard_lt.
    + exfalso. unfold handleDiscard in Hh.
      destruct (selectedTile (game s)) as [tileId|]; [|done].
      case_bool_decide; [done|].
      destruct (discardTile _ tileId (game s)) as [[??]|] eqn:Hdisc; [done|].
      apply discardTile_None in Hdisc.
      destruct Hok as [_ Hc _ _]. lia.
Qed.

Lemma run_screenOk (d : Param) (evs : list Event) (s : Screen) :
  screenOk s → fairShuffles evs →
  ∃ s', run d evs s = Some s' ∧ screenOk s'.
Proof.
  revert s. induction evs as [|ev evs IH]; intros s Hok Hfair.
  { by exists s. }
  destruct (step_screenOk d ev s Hok) as (s1 & Hstep & Hok1).
  { intros shuffle ->. apply Hfair. left. }
  destruct (IH s1 Hok1) as (s' & Hrun & Hok').
  { intros shuffle Hin. apply Hfair. by right. }
  exists s'. simpl. by rewrite Hstep.
Qed.

(** X19. From the mount of the screen on, whatever events follow in
    whatever order (resets, timeouts, opponent turns, presses), no callback
    throws, and the game always has its four players with their names and
    roles, a current player among them, every hand in sorted order, and on
    the table (hands, discard piles, draw pile) exactly the 136 tiles of
    the deck, with pairwise distinct identifiers; every pending draw is
    for one of the four players. Each shuffle is a rearrangement. *)
Theorem screen_invariant (d : Param) (shuffle : list Tile → list Tile)
    (evs : list Event) :
  (∀ l, shuffle l ≡ₚ l) →
  fairShuffles evs →
  ∃ s, run d (EvInitializeGame shuffle :: evs) unmounted = Some s
       ∧ seat <$> players (game s) = tableSeats
       ∧ (currentPlayerIndex (game s) < 4)%nat
       ∧ Forall (λ p, StronglySorted tileLe (hand p)) (players (game s))
       ∧ allTiles (game s) ≡ₚ orderedTiles
       ∧ length (allTiles (game s)) = 136%nat
       ∧ NoDup (tile_id <$> allTiles (game s))
       ∧ Forall (λ i, (i < 4)%nat) (timers s).
Proof.
  intros Hperm Hfair. cbn [run step].
  destruct (run_screenOk d evs
              (mkScreen (initializeGame shuffle d (game unmounted)).1
                 (timers unmounted)))
    as (s & Hrun & [[Hs Hc Ht Hsorted] Htimers]); [|done|].
  { split; [by apply initializeGame_tableOk|done]. }
  exists s. repeat (split; [done|]).
  split; [by rewrite Ht, orderedTiles_length|].
  split; [|done]. rewrite Ht. apply orderedTiles_ids.
Qed.

Lemma screen_invariant_witness :
  ∃ s, run (PString "hard")
         [EvInitializeGame reverse; EvTilePress "dot-9-104"; EvDiscardPress;
          EvTimeout; EvPerformAITurn zeros; EvInitializeGame reverse;
          EvTimeout] unmounted = Some s
       ∧ length (allTiles (game s)) = 136%nat
       ∧ NoDup (tile_id <$> allTiles (game s)).
Proof.
  destruct (screen_invariant (PString "hard") reverse
              [EvTilePress "dot-9-104"; EvDiscardPress; EvTimeout;
               EvPerformAITurn zeros; EvInitializeGame reverse; EvTimeout])
    as (s & Hrun & _ & _ & _ & _ & Hlen & Hids & _).
  - apply reverse_Permutation.
  - intros sh Hin l. rewrite !elem_of_cons, elem_of_nil in Hin.
    destruct Hin as [Hin|[Hin|[Hin|[Hin|[Hin|[Hin|[]]]]]]];
      try discriminate Hin.
    injection Hin as ->. apply reverse_Permutation.
  - exists s. split; [exact Hrun|]. split; [exact Hlen|exact Hids].
Defined.

(** *** Who can hold how many tiles *)

Lemma handSize_insert (g g' : Game) k p p' j :
  players g !! k = Some p → players g' = <[k := p']> (players g) →
  handSize g' j
  = if decide (j = k) then length (hand p') else handSize g j.
Proof.
  intros Hk Hpl. unfold handSize. rewrite Hpl.
  destruct (decide (j = k)) as [->|Hne].
  - rewrite list_lookup_insert_eq; [done|]. by eapply lookup_lt_Some.
  - by rewrite list_lookup_insert_ne.
Qed.

Lemma handSize_lookup (g : Game) k p :
  players g !! k = Some p → handSize g k = length (hand p).
Proof. intros Hk. unfold handSize. by rewrite Hk. Qed.

Lemma pendingDraws_cons (g g0 : Game) (k : nat) (rest more : list nat) j :
  (pendingDraws (mkScreen g0 (k :: rest)) j
   = (if decide (k = j) then 1 else 0) + pendingDraws (mkScreen g rest) j)%nat.
Proof.
  unfold pendingDraws. cbn [timers]. rewrite filter_cons.
  by destruct (decide (k = j)).
Qed.

Lemma pendingDraws_snoc (g g0 : Game) (k : nat) (l : list nat) j :
  (pendingDraws (mkScreen g0 (l ++ [k])) j
   = pendingDraws (mkScreen g l) j + (if decide (k = j) then 1 else 0))%nat.
Proof.
  unfold pendingDraws. cbn [timers]. rewrite filter_app, length_app.
  rewrite filter_cons, filter_nil. by destruct (decide (k = j)).
Qed.

Lemma pendingDraws_timers (s s' : Screen) j :
  timers s' = timers s → pendingDraws s' j = pendingDraws s j.
Proof. unfold pendingDraws. by intros ->. Qed.

Lemma seat_name (g : Game) i p :
  tableOk g → players g !! i = Some p → i ≠ 0%nat → player_name p ≠ "You".
Proof.
  intros [Hs _ _ _] Hp Hi.
  assert ((seat <$> players g) !! i = Some (seat p)) as Hseat
    by (by rewrite list_lookup_fmap, Hp).
  rewrite Hs in Hseat. unfold tableSeats in Hseat.
  destruct i as [|[|[|[|?]]]]; try done; by injection Hseat as _ <- _.
Qed.

(** Passing the turn moves one tile of allowance from the player who
    discards to the player who will draw. *)
Lemma handBound_discard (c i x : nat) :
  (c < 4)%nat → (i < 4)%nat → (x ≤ handBound c i)%nat → (i = c → 1 ≤ x)%nat →
  ((if decide (i = c) then x - 1 else x)
   + (if decide ((c + 1) `mod` 4 = i) then 1 else 0)
   ≤ handBound ((c + 1) `mod` 4) i)%nat.
Proof.
  unfold handBound. intros Hc Hi Hx Hp.
  repeat case_bool_decide; repeat case_decide; lia.
Qed.

(** A discard by the current player keeps the bounds. *)
Lemma discard_turnOk (s : Screen) (g' : Game) tileId effects :
  screenOk s → turnOk s →
  discardTile (currentPlayerIndex (game s)) tileId (game s)
  = Some (g', effects) →
  turnOk (mkScreen g' (timers s ++ scheduled effects)).
Proof.
  intros [Hok _] [Hbound Hwin] Hdisc.
  pose proof (tableOk_length _ Hok) as Hlen.
  pose proof (ok_current _ Hok) as Hc.
  apply discardTile_cases in Hdisc
    as [[-> ->] | (p & pre & t & post & Hp & Hh & -> & ->)].
  { split; [|done]. intros i Hi. cbn [game]. specialize (Hbound i Hi).
    rewrite (pendingDraws_timers s); [done|]. cbn [timers scheduled omap].
    by rewrite app_nil_r. }
  split; [|done]. cbn [game currentPlayerIndex]. intros i Hi.
  erewrite handSize_insert; [|exact Hp|reflexivity].
  rewrite (pendingDraws_snoc (game s)). cbn [hand].
  change (pendingDraws {| game := game s; timers := timers s |} i)
    with (pendingDraws s i).
  rewrite Hlen, length_app.
  pose proof (handSize_lookup _ _ _ Hp) as Hsize.
  rewrite Hh, length_app in Hsize. simpl in Hsize.
  pose proof (handBound_discard (currentPlayerIndex (game s)) i
                (handSize (game s) i + pendingDraws s i) Hc Hi
                (Hbound i Hi)) as Hpass.
  destruct (decide (i = currentPlayerIndex (game s))) as [->|Hne].
  - specialize (Hpass ltac:(lia)).
    destruct (decide (_ `mod` 4 = _)%nat) in Hpass |- *; lia.
  - specialize (Hpass ltac:(done)).
    destruct (decide (_ `mod` 4 = _)%nat) in Hpass |- *; lia.
Qed.

(** A timeout keeps the bounds. *)
Lemma timeout_turnOk (s : Screen) (i : nat) (rest : list nat) (g' : Game)
    effects :
  screenOk s → turnOk s → timers s = i :: rest →
  drawTile i (game s) = Some (g', effects) →
  turnOk (mkScreen g' (rest ++ scheduled effects)).
Proof.
  intros [Hok Htimers] [Hbound Hwin] Ht Hdraw.
  rewrite Ht in Htimers. apply Forall_cons in Htimers as [Hi _].
  assert (∀ j, pendingDraws s j
               = ((if decide (i = j) then 1 else 0)
                  + pendingDraws (mkScreen (game s) rest) j)%nat) as Hpend.
  { intros j. unfold pendingDraws. rewrite Ht. cbn [timers].
    rewrite filter_cons. by destruct (decide (i = j)). }
  apply drawTile_cases in Hdraw
    as [(_ & -> & ->) |
        (p & drawn & rest' & Hp & _ & Hpl & Hci & _ & -> & _ & Hw)].
  - split; [|done]. cbn [game currentPlayerIndex]. intros j Hj.
    specialize (Hbound j Hj). rewrite Hpend in Hbound. rewrite app_nil_r.
    unfold handSize in *. cbn [players].
    change (pendingDraws {| game := _; timers := rest |} j)
      with (pendingDraws (mkScreen (game s) rest) j). lia.
  - rewrite app_nil_r. split.
    + cbn [game]. rewrite Hci. intros j Hj. specialize (Hbound j Hj).
      rewrite Hpend in Hbound.
      rewrite (handSize_insert (game s) g' i p _ j Hp Hpl).
      change (pendingDraws {| game := g'; timers := rest |} j)
        with (pendingDraws (mkScreen (game s) rest) j).
      destruct (decide (j = i)) as [->|Hne].
      * rewrite decide_True in Hbound by done.
        rewrite (handSize_lookup _ _ _ Hp) in Hbound. cbn [hand setHand].
        unfold sortHand. rewrite length_sortBy, length_app. simpl. lia.
      * rewrite decide_False in Hbound by done. lia.
    + cbn [game]. destruct Hw as [-> | [-> Hthirteen]]; [done|].
      destruct (decide (i = 0%nat)) as [->|Hne].
      * specialize (Hbound 0%nat Hi). rewrite Hpend in Hbound.
        rewrite decide_True in Hbound by done.
        rewrite (handSize_lookup _ _ _ Hp), Hthirteen in Hbound.
        unfold handBound in Hbound.
        rewrite (bool_decide_eq_true_2 (0 = 0)%nat) in Hbound by done.
        case_bool_decide; lia.
      * intros [= Hname]. by apply (seat_name (game s) i p).
Qed.

Lemma step_turnOk (d : Param) (ev : Event) (s s' : Screen) :
  screenOk s → turnOk s → isInitializeGame ev = false →
  step d ev s = Some s' → turnOk s'.
Proof.
  intros Hok Hturn Hev.
  destruct ev as [shuffle| |rs|tileId|]; [done|..]; cbn [step].
  - destruct (timers s) as [|i rest] eqn:Ht; [by intros [= <-]|].
    destruct (drawTile i (game s)) as [[g' effects]|] eqn:Hdraw; [|done].
    intros [= <-]. by eapply timeout_turnOk.
  - destruct (performAITurn_cases rs d (game s)) as [-> | [tileId ->]].
    + intros [= <-]. destruct Hturn as [Hbound Hwin]. split; [|done].
      intros i Hi. specialize (Hbound i Hi). cbn [game].
      rewrite (pendingDraws_timers s); [done|].
      cbn [timers scheduled omap]. by rewrite app_nil_r.
    + destruct (discardTile _ tileId (game s)) as [[g' effects]|] eqn:Hdisc;
        [|done].
      intros [= <-]. by eapply discard_turnOk.
  - intros [= <-]. destruct Hturn as [Hbound Hwin].
    destruct (handleTilePress_cases tileId (game s)) as [sel ->].
    split; [|done]. intros i Hi. specialize (Hbound i Hi). done.
  - destruct (handleDiscard (game s)) as [[g' ui]|] eqn:Hh; [|done].
    intros [= <-].
    apply handleDiscard_cases in Hh
      as [[-> ->] | (tileId & effects & Hdisc & ->)].
    + destruct Hturn as [Hbound Hwin]. split; [|done].
      intros i Hi. specialize (Hbound i Hi). cbn [game].
      rewrite (pendingDraws_timers s); [done|]. cbn [timers].
      by rewrite app_nil_r.
    + by eapply discard_turnOk.
Qed.

Lemma run_turnOk (d : Param) (evs : list Event) (s : Screen) :
  screenOk s → turnOk s → Forall (λ ev, isInitializeGame ev = false) evs →
  ∃ s', run d evs s = Some s' ∧ screenOk s' ∧ turnOk s'.
Proof.
  revert s. induction evs as [|ev evs IH]; intros s Hok Hturn Hevs.
  { by exists s. }
  apply Forall_cons in Hevs as [Hev Hevs].
  destruct (step_screenOk d ev s Hok) as (s1 & Hstep & Hok1).
  { intros shuffle ->. done. }
  pose proof (step_turnOk d ev s s1 Hok Hturn Hev Hstep) as Hturn1.
  destruct (IH s1 Hok1 Hturn1 Hevs) as (s' & Hrun & Hok' & Hturn').
  exists s'. simpl. by rewrite Hstep.
Qed.

Lemma initializeGame_turnOk (shuffle : list Tile → list Tile) d (g : Game) :
  (∀ l, shuffle l ≡ₚ l) →
  turnOk (mkScreen (initializeGame shuffle d g).1 []).
Proof.
  intros Hperm. pose proof (createTileDeck_length shuffle Hperm) as Hlen.
  split; [|done]. intros i Hi. unfold pendingDraws, handSize.
  cbn [game timers initializeGame fst players currentPlayerIndex].
  destruct i as [|[|[|[|?]]]]; [..|lia]; cbn [lookup list_lookup hand];
    unfold sortHand; rewrite length_sortBy, slice_length, filter_nil by lia;
    unfold handBound; repeat case_bool_decide; simpl; lia.
Qed.

(** X20. As long as the game is not reset, whatever events follow the
    mount: the human player never holds more than 13 tiles, and no more
    than 12 while the turn is with an opponent; no player ever holds more
    than 14; and the human player is never the winner. (Only a hand of 14
    tiles can win, and the deal gives the player who moves first 13 tiles
    and no draw.) *)
Theorem human_never_wins (d : Param) (shuffle : list Tile → list Tile)
    (evs : list Event) :
  (∀ l, shuffle l ≡ₚ l) →
  Forall (λ ev, isInitializeGame ev = false) evs →
  ∃ s p0, run d (EvInitializeGame shuffle :: evs) unmounted = Some s
       ∧ players (game s) !! 0%nat = Some p0
       ∧ player_name p0 = "You" ∧ isAI p0 = false
       ∧ winner (game s) ≠ Some (player_name p0)
       ∧ (length (hand p0) ≤ 13)%nat
       ∧ (currentPlayerIndex (game s) ≠ 0%nat → (length (hand p0) ≤ 12)%nat)
       ∧ ∀ i p, players (game s) !! i = Some p → (length (hand p) ≤ 14)%nat.
Proof.
  intros Hperm Hevs. cbn [run step].
  destruct (run_turnOk d evs
              (mkScreen (initializeGame shuffle d (game unmounted)).1
                 (timers unmounted)))
    as (s & Hrun & [Hok Htimers] & [Hbound Hwin]); [| |done|].
  { split; [by apply initializeGame_tableOk|done]. }
  { by apply initializeGame_turnOk. }
  pose proof (ok_seats _ Hok) as Hseats.
  destruct (players (game s) !! 0%nat) as [p0|] eqn:Hp0; last first.
  { apply lookup_ge_None in Hp0. rewrite (tableOk_length _ Hok) in Hp0. lia. }
  assert ((seat <$> players (game s)) !! 0%nat = Some (seat p0)) as Hseat
    by (by rewrite list_lookup_fmap, Hp0).
  rewrite Hseats in Hseat. injection Hseat as _ Hname Hai.
  exists s, p0. split; [done|]. split; [done|]. split; [done|].
  split; [done|]. split; [by rewrite <-Hname|].
  assert (∀ i p, players (game s) !! i = Some p →
            (length (hand p) ≤ handBound (currentPlayerIndex (game s)) i)%nat)
    as Hhand.
  { intros i p Hp.
    assert (i < 4)%nat as Hi.
    { rewrite <-(tableOk_length _ Hok). by eapply lookup_lt_Some. }
    specialize (Hbound i Hi). rewrite (handSize_lookup _ _ _ Hp) in Hbound.
    lia. }
  split; [|split].
  - specialize (Hhand _ _ Hp0). unfold handBound in Hhand.
    rewrite (bool_decide_eq_true_2 (0 = 0)%nat) in Hhand by done.
    case_bool_decide; lia.
  - intros Hc. specialize (Hhand _ _ Hp0). unfold handBound in Hhand.
    rewrite (bool_decide_eq_true_2 (0 = 0)%nat) in Hhand by done.
    by rewrite bool_decide_eq_false_2 in Hhand by done.
  - intros i p Hp. specialize (Hhand _ _ Hp). unfold handBound in Hhand.
    repeat case_bool_decide; lia.
Qed.

Lemma human_never_wins_witness :
  ∃ s p0,
    run (PString "hard")
      [EvInitializeGame reverse; EvTilePress "dragon-white-135";
       EvDiscardPress; EvTimeout; EvPerformAITurn zeros; EvTimeout]
      unmounted = Some s
    ∧ players (game s) !! 0%nat = Some p0
    ∧ winner (game s) ≠ Some (player_name p0)
    ∧ (length (hand p0) ≤ 13)%nat.
Proof.
  destruct (human_never_wins (PString "hard") reverse
              [EvTilePress "dragon-white-135"; EvDiscardPress; EvTimeout;
               EvPerformAITurn zeros; EvTimeout])
    as (s & p0 & Hrun & Hp0 & _ & _ & Hwin & Hlen & _).
  - apply reverse_Permutation.
  - by repeat constructor.
  - exists s, p0. split; [exact Hrun|]. split; [exact Hp0|].
    split; [exact Hwin|exact Hlen].
Defined.

(** *** What only a reset undoes *)

Lemma playerLater_refl (p : Player) : playerLater p p.
Proof. by split. Qed.

Lemma gameLater_refl (g : Game) : gameLater g g.
Proof.
  split; [done|]. split; [done|].
  apply Forall_Forall2_diag, Forall_forall. intros p _. apply playerLater_refl.
Qed.

Lemma gameLater_trans (g1 g2 g3 : Game) :
  gameLater g1 g2 → gameLater g2 g3 → gameLater g1 g3.
Proof.
  intros (Hf1 & Hp1 & Hd1) (Hf2 & Hp2 & Hd2). split; [auto|].
  split; [by etrans|].
  eapply Forall2_trans; [|exact Hd1|exact Hd2].
  intros p q r [Hs1 Hpre1] [Hs2 Hpre2]. split; [congruence|by etrans].
Qed.

Lemma players_insert_later (l : list Player) i p p' :
  l !! i = Some p → playerLater p p' →
  Forall2 playerLater l (<[i:=p']> l).
Proof.
  intros Hi Hlater. rewrite <-(list_insert_id l i p Hi) at 1.
  apply Forall2_insert; [|done].
  apply Forall_Forall2_diag, Forall_forall. intros q _. apply playerLater_refl.
Qed.

Lemma drawTile_later (i : nat) (g g' : Game) effects :
  drawTile i g = Some (g', effects) → gameLater g g'.
Proof.
  intros [(_ & -> & _) |
          (p & drawn & rest & Hp & Hpile & Hpl & _ & Hrest & _ & Hphase & _)]
    %drawTile_cases.
  { split; [done|]. split; [done|]. cbn [players].
    apply Forall_Forall2_diag, Forall_forall. intros q _.
    apply playerLater_refl. }
  split; [|split].
  - intros Hfin. destruct Hphase as [-> | ->]; done.
  - rewrite Hrest, Hpile. by apply suffix_cons_r.
  - rewrite Hpl. by apply (players_insert_later _ _ p).
Qed.

Lemma discardTile_later (i : nat) tileId (g g' : Game) effects :
  discardTile i tileId g = Some (g', effects) → gameLater g g'.
Proof.
  intros [[-> _] | (p & pre & t & post & Hp & _ & -> & _)]%discardTile_cases.
  { apply gameLater_refl. }
  split; [done|]. split; [done|]. cbn [players].
  apply (players_insert_later _ _ p); [done|]. split; [done|].
  cbn [discarded]. by apply prefix_app_r.
Qed.

Lemma setSelectedTile_later (g : Game) sel : gameLater g (setSelectedTile g sel).
Proof.
  split; [done|]. split; [done|]. cbn [players setSelectedTile].
  apply Forall_Forall2_diag, Forall_forall. intros q _. apply playerLater_refl.
Qed.

Lemma step_later (d : Param) (ev : Event) (s s' : Screen) :
  isInitializeGame ev = false → step d ev s = Some s' →
  gameLater (game s) (game s').
Proof.
  intros Hev. destruct ev as [shuffle| |rs|tileId|]; [done|..]; cbn [step].
  - destruct (timers s) as [|i rest]; [intros [= <-]; apply gameLater_refl|].
    destruct (drawTile i (game s)) as [[g' effects]|] eqn:Hdraw; [|done].
    intros [= <-]. by eapply drawTile_later.
  - destruct (performAITurn_cases rs d (game s)) as [-> | [tileId ->]].
    { intros [= <-]. apply gameLater_refl. }
    destruct (discardTile _ tileId (game s)) as [[g' effects]|] eqn:Hdisc;
      [|done].
    intros [= <-]. by eapply discardTile_later.
  - intros [= <-]. cbn [game].
    destruct (handleTilePress_cases tileId (game s)) as [sel ->].
    apply setSelectedTile_later.
  - destruct (handleDiscard (game s)) as [[g' ui]|] eqn:Hh; [|done].
    intros [= <-]. cbn [game].
    apply handleDiscard_cases in Hh
      as [[-> _] | (tileId & effects & Hdisc & _)].
    + apply gameLater_refl.
    + by eapply discardTile_later.
Qed.

(** X21. Between two resets nothing is taken back: whatever events
    happen, a finished game stays finished, the draw pile is an end piece
    of the earlier draw pile, and every player keeps seat, name and role and
    a discard pile which begins with the earlier one. *)
Theorem nothing_taken_back (d : Param) (evs : list Event) (s s' : Screen) :
  Forall (λ ev, isInitializeGame ev = false) evs →
  run d evs s = Some s' →
  (gameState (game s) = finished → gameState (game s') = finished)
  ∧ drawPile (game s') `suffix_of` drawPile (game s)
  ∧ length (players (game s')) = length (players (game s))
  ∧ ∀ i p, players (game s) !! i = Some p →
      ∃ p', players (game s') !! i = Some p'
            ∧ seat p' = seat p
            ∧ discarded p `prefix_of` discarded p'.
Proof.
  intros Hevs Hrun.
  assert (gameLater (game s) (game s')) as (Hfin & Hpile & Hpl).
  { revert s Hrun. induction Hevs as [|ev evs Hev _ IH]; intros s Hrun.
    { injection Hrun as <-. apply gameLater_refl. }
    simpl in Hrun. destruct (step d ev s) as [s1|] eqn:Hstep; [|done].
    eapply gameLater_trans; [by eapply step_later|by apply IH]. }
  split; [done|]. split; [done|].
  split; [symmetry; by eapply Forall2_length|].
  intros i p Hp.
  destruct (Forall2_lookup_l _ _ _ _ _ Hpl Hp) as (p' & Hp' & Hs & Hpre).
  by exists p'.
Qed.

Lemma nothing_taken_back_witness :
  drawPile (mkGame playing
              [ mkPlayer "player" "You"
                  [numTile bamboo 1 0; numTile dot 9 104] [] false;
                mkPlayer "ai1" "AI Bot 1"
                  [numTile bamboo 2 4; numTile bamboo 9 32; numTile dot 5 88]
                  [windTile east 108] true;
                mkPlayer "ai2" "AI Bot 2"
                  [numTile dot 1 72; numTile dot 2 76] [] true;
                mkPlayer "ai3" "AI Bot 3"
                  [windTile west 116; windTile west 117] [] true ]
              1 [numTile dot 3 80] None (Some (numTile bamboo 9 32)) None)
  `suffix_of` [numTile bamboo 9 32; numTile dot 3 80].
Proof.
  apply (nothing_taken_back (PString "hard") [EvTimeout]
           (mkScreen (smallTable [numTile bamboo 9 32; numTile dot 3 80]) [1%nat])
           (mkScreen _ [])).
  - by repeat constructor.
  - cbn [run step timers game]. by rewrite drawTile_example.
Defined.

(** X22. A reset does not cancel a draw which is still pending: the
    timeout fires on the new game, and the player it was set for then
    holds 14 tiles of the new deal, with 83 tiles left in the pile. *)
Theorem reset_keeps_pending_draw (d : Param)
    (shuffle : list Tile → list Tile) (s : Screen) (i : nat)
    (rest : list nat) :
  (∀ l, shuffle l ≡ₚ l) →
  timers s = i :: rest →
  (i < 4)%nat →
  ∃ s' p,
    run d [EvInitializeGame shuffle; EvTimeout] s = Some s'
    ∧ timers s' = rest
    ∧ players (game s') !! i = Some p
    ∧ length (hand p) = 14%nat
    ∧ length (drawPile (game s')) = 83%nat.
Proof.
  intros Hperm Ht Hi. cbn [run step game timers]. rewrite Ht.
  pose proof (initializeGame_tableOk shuffle d (game s) Hperm) as Hok.
  pose proof (createTileDeck_length shuffle Hperm) as Hlen.
  set (g0 := (initializeGame shuffle d (game s)).1) in *.
  assert (length (drawPile g0) = 84%nat) as Hpile.
  { unfold g0, initializeGame. cbn [fst drawPile]. rewrite length_drop. lia. }
  assert (∃ p, players g0 !! i = Some p ∧ length (hand p) = 13%nat)
    as (p & Hp & Hhand).
  { unfold g0, initializeGame. cbn [fst players].
    destruct i as [|[|[|[|?]]]]; [..|lia]; eexists; (split; [reflexivity|]);
      cbn [hand]; unfold sortHand;
      rewrite length_sortBy, slice_length by lia; lia. }
  destruct (drawPile g0) as [|drawn pile] eqn:Hdraw; [done|].
  unfold drawTile. rewrite Hdraw, Hp. cbn [after timers].
  eexists _, _. split; [reflexivity|]. cbn [game timers players drawPile].
  split; [by destruct (checkWin _); rewrite app_nil_r|].
  split; [apply list_lookup_insert_eq; by eapply lookup_lt_Some|].
  cbn [hand setHand]. unfold sortHand.
  rewrite length_sortBy, length_app. simpl in *. lia.
Qed.

Lemma reset_keeps_pending_draw_witness :
  ∃ s' p,
    run (PString "easy") [EvInitializeGame reverse; EvTimeout]
      (mkScreen (smallTable []) [0%nat; 2%nat]) = Some s'
    ∧ timers s' = [2%nat]
    ∧ players (game s') !! 0%nat = Some p
    ∧ length (hand p) = 14%nat
    ∧ length (drawPile (game s')) = 83%nat.
Proof.
  apply (reset_keeps_pending_draw (PString "easy") reverse
           (mkScreen (smallTable []) [0%nat; 2%nat]) 0 [2%nat]).
  - apply reverse_Permutation.
  - reflexivity.
  - lia.
Defined.

(** ** More on the win predicate *)

Lemma groupSize_keys (h : list Tile) g :
  groupSize h g = length (filter (λ k, k = g) (groupKey <$> h)).
Proof.
  unfold groupSize. induction h as [|t h IH]; [done|].
  rewrite fmap_cons, !filter_cons.
  destruct (decide (groupKey t = g)); simpl; by rewrite IH.
Qed.

Lemma groupsOfAtLeast_keys (k : nat) (h h' : list Tile) :
  groupKey <$> h ≡ₚ groupKey <$> h' →
  groupsOfAtLeast k h = groupsOfAtLeast k h'.
Proof.
  intros Hkeys. unfold groupsOfAtLeast, groups.
  assert (∀ g, groupSize h g = groupSize h' g) as Hsize.
  { intros g. by rewrite !groupSize_keys, Hkeys. }
  rewrite (list_filter_iff _ (λ g, (k ≤ groupSize h' g)%nat))
    by (intros g; by rewrite Hsize).
  assert (remove_dups (groupKey <$> h) ≡ₚ remove_dups (groupKey <$> h'))
    as ->; [|done].
  apply NoDup_Permutation; [apply NoDup_remove_dups..|].
  intros g. by rewrite !elem_of_remove_dups, Hkeys.
Qed.

(** X23. [checkWin] looks at nothing but how often each (suit, value)
    occurs: two hands with the same suits and values, in any order and
    under any identifiers, get the same answer. In particular sorting a
    hand does not change it. *)
Theorem checkWin_keys (h h' : list Tile) :
  groupKey <$> h ≡ₚ groupKey <$> h' →
  checkWin h = checkWin h' ∧ checkWin (sortHand h) = checkWin h.
Proof.
  assert (∀ h1 h2, groupKey <$> h1 ≡ₚ groupKey <$> h2 →
            checkWin h1 = checkWin h2) as Hgen.
  { intros h1 h2 Hkeys. unfold checkWin.
    assert (length h1 = length h2) as ->.
    { by rewrite <-(length_fmap groupKey h1), Hkeys, length_fmap. }
    case_bool_decide; [done|].
    by rewrite !tally_groups, !(groupsOfAtLeast_keys _ h1 h2). }
  intros Hkeys. split; [by apply Hgen|].
  apply Hgen. by rewrite sortHand_Permutation.
Qed.

Lemma checkWin_keys_witness :
  checkWin (reverse threeTriplets) = checkWin threeTriplets
  ∧ checkWin (sortHand (reverse threeTriplets))
    = checkWin (reverse threeTriplets).
Proof.
  apply (checkWin_keys (reverse threeTriplets) threeTriplets).
  by rewrite reverse_Permutation.
Defined.
